(** * go-nostr: NIP-44 payload codec and event identifiers

    A shallow embedding of [nip44/nip44.go] (shared secrets, [Encrypt],
    [Decrypt]) and of the event file ([Serialize], [GetID], [CheckID]).

    Go strings and byte slices are both sequences of bytes: they are
    modelled as [list byte].  A Go function returning [(T, error)] returns
    a [result T]; a run-time panic (index out of range) is the third
    outcome [Panic], so that totality can be stated. *)

From Stdlib Require Import Ascii String.
From Stdlib Require Import ZArith Zcong List Lia Bool.
From Stdlib Require Import Strings.Byte DecimalString.
From Stdlib Require DecimalPos DecimalZ.
Import ListNotations.

Local Open Scope Z_scope.

(** ** Bytes and Go strings *)

Definition bytes := list byte.

Definition Z_of_byte (b : byte) : Z := Z.of_N (Byte.to_N b).

Definition byte_of_Z (z : Z) : byte :=
  match Byte.of_N (Z.to_N (z mod 256)) with
  | Some b => b
  | None => x00
  end.

Definition byte_eqb (a b : byte) : bool := Byte.eqb a b.

(** Big-endian integers. *)
Definition be_Z (bs : bytes) : Z :=
  fold_left (fun acc b => acc * 256 + Z_of_byte b) bs 0.

Fixpoint be_bytes (n : nat) (v : Z) : bytes :=
  match n with
  | O => []
  | S n' => be_bytes n' (v / 256) ++ [byte_of_Z v]
  end.

(** A Go string literal. *)
Definition str (s : string) : bytes := list_byte_of_string s.

(** A Go string literal in which the apostrophe stands for the double
    quote character (0x22). *)
Definition lit (s : string) : bytes :=
  map (fun b => if byte_eqb b x27 then x22 else b) (list_byte_of_string s).

(** ** Outcomes of a Go call *)

Inductive error : Type :=
  | ErrDecodingSenderPrivateKey     (* "error decoding sender private key" *)
  | ErrDecodingReceiverPublicKey    (* "error decoding hex string of receiver public key" *)
  | ErrParsingReceiverPublicKey     (* "error parsing receiver public key" *)
  | ErrCreatingNonce                (* "error creating nonce" *)
  | ErrCreatingCipher               (* "error creating cipher" *)
  | ErrInvalidBase64                (* "invalid base64" *)
  | ErrUnknownVersion (v : byte)    (* "unknown version: %d" *)
  | ErrPayloadTooSmall (n : nat).   (* "invalid payload, too small: %d" *)

Inductive panic : Type :=
  | IndexOutOfRange (i len : nat).

Inductive result (A : Type) : Type :=
  | Ok (a : A)
  | Err (e : error)
  | Panic (p : panic).

Arguments Ok {A} a.
Arguments Err {A} e.
Arguments Panic {A} p.

Definition bind {A B} (r : result A) (k : A -> result B) : result B :=
  match r with
  | Ok a => k a
  | Err e => Err e
  | Panic p => Panic p
  end.

Notation "x <- r ;; k" := (bind r (fun x => k))
  (at level 61, r at next level, right associativity).

(** [s[i]]: indexing a string or slice panics out of range. *)
Definition index (s : bytes) (i : nat) : result byte :=
  match nth_error s i with
  | Some b => Ok b
  | None => Panic (IndexOutOfRange i (length s))
  end.

(** ** strconv *)

Module strconv.

(** [strconv.FormatInt(i, 10)]: plain decimal, a minus sign for negative
    values, no leading zeros. *)
Definition FormatInt (i : Z) : bytes :=
  list_byte_of_string (NilZero.string_of_int (Z.to_int i)).

Definition Itoa (i : Z) : bytes := FormatInt i.

End strconv.

(** ** encoding/hex *)

Module hex.

Definition hextable : bytes := str "0123456789abcdef".

Definition digit (n : Z) : byte := nth (Z.to_nat n) hextable x00.

(** [hex.EncodeToString]: two lowercase digits per byte, high nibble
    first. *)
Fixpoint EncodeToString (src : bytes) : bytes :=
  match src with
  | [] => []
  | b :: rest =>
      digit (Z.shiftr (Z_of_byte b) 4) :: digit (Z.land (Z_of_byte b) 15)
        :: EncodeToString rest
  end.

(** [fromHexChar]: digits and letters of both cases. *)
Definition fromHexChar (c : byte) : option Z :=
  let z := Z_of_byte c in
  if (48 <=? z) && (z <=? 57) then Some (z - 48)
  else if (97 <=? z) && (z <=? 102) then Some (z - 97 + 10)
  else if (65 <=? z) && (z <=? 70) then Some (z - 65 + 10)
  else None.

(** [hex.DecodeString]: [None] stands for [ErrLength] (odd length) and
    [InvalidByteError]. *)
Fixpoint DecodeString (s : bytes) : option bytes :=
  match s with
  | [] => Some []
  | [_] => None
  | a :: b :: rest =>
      match fromHexChar a, fromHexChar b, DecodeString rest with
      | Some h, Some l, Some out => Some (byte_of_Z (Z.lor (Z.shiftl h 4) l) :: out)
      | _, _, _ => None
      end
  end.

End hex.

(** ** The event model *)

Record Event : Type := mkEvent {
  ID : bytes;
  PubKey : bytes;
  CreatedAt : Z;      (* Timestamp, an int64 *)
  Kind : Z;           (* int *)
  Tags : list (list bytes);
  Content : bytes;
  Sig : bytes
}.

(** Modelled from the spec: [escapeString] is called by
    [serializeEventInto] but its definition is not among the sources.  The
    spec (4.3) describes it as the canonical string-escaping routine that
    wraps the value in quotes and escapes quote and backslash characters,
    control characters, and the Unicode line and paragraph separators
    (U+2028, U+2029: the UTF-8 bytes e2 80 a8 and e2 80 a9) with minimal
    standard escape sequences; every other byte is copied. *)
Fixpoint escapeBody (s : bytes) : bytes :=
  match s with
  | [] => []
  | xe2 :: x80 :: xa8 :: rest => str "\u2028" ++ escapeBody rest
  | xe2 :: x80 :: xa9 :: rest => str "\u2029" ++ escapeBody rest
  | c :: rest =>
      (if byte_eqb c x22 then [x5c; x22]
       else if byte_eqb c x5c then [x5c; x5c]
       else if byte_eqb c x08 then str "\b"
       else if byte_eqb c x09 then str "\t"
       else if byte_eqb c x0a then str "\n"
       else if byte_eqb c x0c then str "\f"
       else if byte_eqb c x0d then str "\r"
       else if Z_of_byte c <? 32 then str "\u00" ++ hex.EncodeToString [c]
       else [c]) ++ escapeBody rest
  end.

Definition escapeString (dst : bytes) (s : bytes) : bytes :=
  dst ++ [x22] ++ escapeBody s ++ [x22].

(** The inner loop of [serializeEventInto]: [for i, s := range tag]. *)
Fixpoint serializeTagItems (i : nat) (tag : list bytes) (dst : bytes) : bytes :=
  match tag with
  | [] => dst
  | s :: rest =>
      let dst := if (0 <? i)%nat then dst ++ str "," else dst in
      let dst := escapeString dst s in
      serializeTagItems (S i) rest dst
  end.

(** The outer loop: [for i, tag := range evt.Tags]. *)
Fixpoint serializeTags (i : nat) (tags : list (list bytes)) (dst : bytes) : bytes :=
  match tags with
  | [] => dst
  | tag :: rest =>
      let dst := if (0 <? i)%nat then dst ++ str "," else dst in
      let dst := dst ++ str "[" in
      let dst := serializeTagItems 0 tag dst in
      let dst := dst ++ str "]" in
      serializeTags (S i) rest dst
  end.

Definition serializeEventInto (evt : Event) (dst : bytes) : bytes :=
  let dst := dst ++ lit "[0,'" in
  let dst := dst ++ PubKey evt in
  let dst := dst ++ lit "'," in
  let dst := dst ++ strconv.FormatInt (CreatedAt evt) in
  let dst := dst ++ str "," in
  let dst := dst ++ strconv.Itoa (Kind evt) in
  let dst := dst ++ str "," in
  let dst := dst ++ str "[" in
  let dst := serializeTags 0 (Tags evt) dst in
  let dst := dst ++ str "]," in
  let dst := escapeString dst (Content evt) in
  let dst := dst ++ str "]" in
  dst.

(** [make([]byte, 0, cap)] is the empty slice whatever its capacity. *)
Definition Serialize (evt : Event) : bytes :=
  serializeEventInto evt [].

Definition example_event : Event :=
  mkEvent [] (repeat x61 64) 1700000000 1 [[str "e"; str "abc"]] (str "hi") [].

(** ** Keccak-256 (go-ethereum's [crypto.Keccak256Hash])

    The sponge over Keccak-f[1600] with rate 136 bytes and the original
    Keccak padding (domain byte 0x01).  A lane is a 64-bit word, a [Z] in
    [0, 2^64); the state is the list of its 25 lanes, lane (x, y) at index
    [x + 5 * y]. *)

Module keccak.

Definition w64 (z : Z) : Z := z mod 2 ^ 64.

Definition rotl64 (v : Z) (n : Z) : Z :=
  Z.lor (w64 (Z.shiftl v n)) (Z.shiftr v (64 - n)).

Definition not64 (v : Z) : Z := Z.lxor v (Z.ones 64).

Definition lane (st : list Z) (i : nat) : Z := nth i st 0.

Definition round_constants : list Z :=
  [ 0x0000000000000001; 0x0000000000008082; 0x800000000000808A;
    0x8000000080008000; 0x000000000000808B; 0x0000000080000001;
    0x8000000080008081; 0x8000000000008009; 0x000000000000008A;
    0x0000000000000088; 0x0000000080008009; 0x000000008000000A;
    0x000000008000808B; 0x800000000000008B; 0x8000000000008089;
    0x8000000000008003; 0x8000000000008002; 0x8000000000000080;
    0x000000000000800A; 0x800000008000000A; 0x8000000080008081;
    0x8000000000008080; 0x0000000080000001; 0x8000000080008008 ].

(** Rotation offsets, lane (x, y) at index [x + 5 * y]. *)
Definition rotation_offsets : list Z :=
  [  0;  1; 62; 28; 27;
    36; 44;  6; 55; 20;
     3; 10; 43; 25; 39;
    41; 45; 15; 21;  8;
    18;  2; 61; 56; 14 ].

Definition theta (st : list Z) : list Z :=
  let C := map (fun x =>
    Z.lxor (lane st x)
      (Z.lxor (lane st (x + 5))
         (Z.lxor (lane st (x + 10))
            (Z.lxor (lane st (x + 15)) (lane st (x + 20))))))
    (seq 0 5) in
  let D := map (fun x =>
    Z.lxor (lane C ((x + 4) mod 5)) (rotl64 (lane C ((x + 1) mod 5)) 1))
    (seq 0 5) in
  map (fun i => Z.lxor (lane st i) (lane D (i mod 5))) (seq 0 25).

(** rho and pi together: B[X, Y] = rot (A[x, y], r[x, y]) where
    X = y and Y = 2x + 3y, that is x = X + 3Y. *)
Definition rho_pi (st : list Z) : list Z :=
  map (fun i =>
    let X := (i mod 5)%nat in
    let Y := (i / 5)%nat in
    let x := ((X + 3 * Y) mod 5)%nat in
    let y := X in
    rotl64 (lane st (x + 5 * y)) (nth (x + 5 * y) rotation_offsets 0))
    (seq 0 25).

Definition chi (st : list Z) : list Z :=
  map (fun i =>
    let x := (i mod 5)%nat in
    let y := (i / 5)%nat in
    Z.lxor (lane st i)
      (Z.land (not64 (lane st ((x + 1) mod 5 + 5 * y)))
              (lane st ((x + 2) mod 5 + 5 * y))))
    (seq 0 25).

Definition iota (rc : Z) (st : list Z) : list Z :=
  match st with
  | [] => []
  | a :: rest => Z.lxor a rc :: rest
  end.

Definition round (st : list Z) (rc : Z) : list Z :=
  iota rc (chi (rho_pi (theta st))).

Definition keccak_f (st : list Z) : list Z :=
  fold_left round round_constants st.

(** Little-endian conversion between 8 bytes and a lane. *)
Fixpoint le_lane (bs : bytes) : Z :=
  match bs with
  | [] => 0
  | b :: rest => Z_of_byte b + 256 * le_lane rest
  end.

Definition lane_bytes (v : Z) : bytes :=
  map (fun k => byte_of_Z (Z.shiftr v (8 * Z.of_nat k))) (seq 0 8).

Definition rate : nat := 136.

(** pad10*1 with the Keccak domain byte: the block is one rate long. *)
Definition pad (tail : bytes) : bytes :=
  let q := (rate - length tail)%nat in
  if (q =? 1)%nat then tail ++ [x81]
  else tail ++ [x01] ++ repeat x00 (q - 2) ++ [x80].

Definition absorb_block (st : list Z) (block : bytes) : list Z :=
  keccak_f
    (map (fun i =>
       if (i <? 17)%nat
       then Z.lxor (lane st i) (le_lane (firstn 8 (skipn (8 * i) block)))
       else lane st i)
       (seq 0 25)).

(** Absorb the message block by block; [fuel] bounds the number of
    blocks and [length msg] always suffices. *)
Fixpoint absorb (fuel : nat) (st : list Z) (msg : bytes) : list Z :=
  match fuel with
  | O => absorb_block st (pad msg)
  | S fuel' =>
      if (length msg <? rate)%nat
      then absorb_block st (pad msg)
      else absorb fuel' (absorb_block st (firstn rate msg)) (skipn rate msg)
  end.

(** The 32-byte digest: the first four lanes of the final state. *)
Definition Keccak256 (msg : bytes) : bytes :=
  let st := absorb (length msg) (repeat 0 25) msg in
  flat_map (fun i => lane_bytes (lane st i)) (seq 0 4).

End keccak.

(** ** fmt *)

Module fmt.

Inductive arg : Type :=
  | Int (i : Z)
  | Bytes (b : bytes).

(** [fmt.Sprintf] for the verbs the program uses: [%d] of an integer and
    [%s] of a byte slice, each consuming the next operand.  Any other
    use of [%] is outside the model ([None]). *)
Fixpoint Sprintf (format : bytes) (args : list arg) : option bytes :=
  match format with
  | [] => match args with [] => Some [] | _ :: _ => None end
  | x25 :: x64 :: rest =>
      match args with
      | Int i :: args' =>
          option_map (fun out => strconv.FormatInt i ++ out) (Sprintf rest args')
      | _ => None
      end
  | x25 :: x73 :: rest =>
      match args with
      | Bytes b :: args' => option_map (fun out => b ++ out) (Sprintf rest args')
      | _ => None
      end
  | x25 :: _ => None
  | c :: rest => option_map (cons c) (Sprintf rest args)
  end.

End fmt.

(** ** Event identifiers *)

(** The format string ["\x19Ethereum Signed Message:\n%d%s"]. *)
Definition prefixFormat : bytes :=
  [x19] ++ str "Ethereum Signed Message:" ++ [x0a] ++ str "%d%s".

(** The first three statements of [GetID] and of [CheckID]: the digest of
    the prefixed canonical bytes. *)
Definition idHash (evt : Event) : bytes :=
  let message := Serialize evt in
  let prefixedMessage :=
    match fmt.Sprintf prefixFormat
            [fmt.Int (Z.of_nat (length message)); fmt.Bytes message] with
    | Some m => m
    | None => []
    end in
  keccak.Keccak256 prefixedMessage.

Definition GetID (evt : Event) : bytes :=
  let h := idHash evt in
  hex.EncodeToString h.

(** The loop of [CheckID], [n] iterations from index [i].  [h] is a
    32-byte array, indexed within its bounds; [evt.ID] is a string, and
    indexing it out of range panics. *)
Fixpoint CheckID_loop (n i : nat) (h : bytes) (id : bytes) : result bool :=
  match n with
  | O => Ok true
  | S n' =>
      let b := hex.digit (Z.shiftr (Z_of_byte (nth i h x00)) 4) in
      c <- index id (i * 2) ;;
      if negb (byte_eqb b c) then Ok false
      else
        let b := hex.digit (Z.land (Z_of_byte (nth i h x00)) 15) in
        c <- index id (i * 2 + 1) ;;
        if negb (byte_eqb b c) then Ok false
        else CheckID_loop n' (S i) h id
  end.

Definition CheckID (evt : Event) : result bool :=
  let h := idHash evt in
  CheckID_loop 32 0 h (ID evt).

(** ** encoding/base64, [StdEncoding] *)

Module base64.

Definition encodeStd : bytes :=
  str "ABCDEFGHIJKLMNOPQRSTUVWXYZabcdefghijklmnopqrstuvwxyz0123456789+/".

Definition padChar : byte := x3d.

Definition enc6 (v : Z) : byte := nth (Z.to_nat v) encodeStd x00.

(** The decode map of the standard alphabet. *)
Definition dec6 (c : byte) : option Z :=
  let z := Z_of_byte c in
  if (65 <=? z) && (z <=? 90) then Some (z - 65)
  else if (97 <=? z) && (z <=? 122) then Some (z - 97 + 26)
  else if (48 <=? z) && (z <=? 57) then Some (z - 48 + 52)
  else if z =? 43 then Some 62
  else if z =? 47 then Some 63
  else None.

(** [EncodeToString]: three bytes give four characters; a final group of
    one or two bytes is padded with [=]. *)
Fixpoint EncodeToString (src : bytes) : bytes :=
  match src with
  | [] => []
  | [a] =>
      let val := Z.shiftl (Z_of_byte a) 16 in
      [enc6 (Z.land (Z.shiftr val 18) 63); enc6 (Z.land (Z.shiftr val 12) 63);
       padChar; padChar]
  | [a; b] =>
      let val := Z.lor (Z.shiftl (Z_of_byte a) 16) (Z.shiftl (Z_of_byte b) 8) in
      [enc6 (Z.land (Z.shiftr val 18) 63); enc6 (Z.land (Z.shiftr val 12) 63);
       enc6 (Z.land (Z.shiftr val 6) 63); padChar]
  | a :: b :: c :: rest =>
      let val := Z.lor (Z.lor (Z.shiftl (Z_of_byte a) 16)
                              (Z.shiftl (Z_of_byte b) 8)) (Z_of_byte c) in
      enc6 (Z.land (Z.shiftr val 18) 63) :: enc6 (Z.land (Z.shiftr val 12) 63)
        :: enc6 (Z.land (Z.shiftr val 6) 63) :: enc6 (Z.land val 63)
        :: EncodeToString rest
  end.

(** The value of a quantum of four 6-bit digits. *)
Definition quantum (d0 d1 d2 d3 : Z) : Z :=
  Z.lor (Z.lor (Z.lor (Z.shiftl d0 18) (Z.shiftl d1 12)) (Z.shiftl d2 6)) d3.

(** The decoder after the line breaks are dropped: quanta of four
    alphabet characters; padding only closes the last quantum, and
    nothing follows it.  The encoding is not strict: the unused low bits
    of a padded quantum are not checked. *)
Fixpoint decodeQuanta (s : bytes) : option bytes :=
  match s with
  | [] => Some []
  | c0 :: c1 :: c2 :: c3 :: rest =>
      match dec6 c0, dec6 c1 with
      | Some d0, Some d1 =>
          match dec6 c2, dec6 c3 with
          | Some d2, Some d3 =>
              let val := quantum d0 d1 d2 d3 in
              match decodeQuanta rest with
              | Some out =>
                  Some (byte_of_Z (Z.shiftr val 16) :: byte_of_Z (Z.shiftr val 8)
                          :: byte_of_Z val :: out)
              | None => None
              end
          | Some d2, None =>
              if byte_eqb c3 padChar && (length rest =? 0)%nat then
                let val := quantum d0 d1 d2 0 in
                Some [byte_of_Z (Z.shiftr val 16); byte_of_Z (Z.shiftr val 8)]
              else None
          | None, _ =>
              if byte_eqb c2 padChar && byte_eqb c3 padChar
                 && (length rest =? 0)%nat then
                let val := quantum d0 d1 0 0 in
                Some [byte_of_Z (Z.shiftr val 16)]
              else None
          end
      | _, _ => None
      end
  | _ => None
  end.

Definition isNewline (c : byte) : bool := byte_eqb c x0a || byte_eqb c x0d.

(** [DecodeString]: carriage returns and line feeds are ignored; [None]
    is [CorruptInputError]. *)
Definition DecodeString (s : bytes) : option bytes :=
  decodeQuanta (filter (fun c => negb (isNewline c)) s).

End base64.

(** ** golang.org/x/crypto/chacha20

    ChaCha20 and XChaCha20 on 32-bit words, each a [Z] in [0, 2^32); the
    state is the list of its 16 words. *)

Definition byte_xor (a b : byte) : byte :=
  byte_of_Z (Z.lxor (Z_of_byte a) (Z_of_byte b)).

Module chacha20.

Definition KeySize : nat := 32.
Definition NonceSize : nat := 12.
Definition NonceSizeX : nat := 24.

Definition w32 (z : Z) : Z := z mod 2 ^ 32.

Definition rotl32 (v : Z) (n : Z) : Z :=
  Z.lor (w32 (Z.shiftl v n)) (Z.shiftr v (32 - n)).

Definition word (st : list Z) (i : nat) : Z := nth i st 0.

Fixpoint set (st : list Z) (i : nat) (v : Z) : list Z :=
  match st, i with
  | [], _ => []
  | _ :: rest, O => v :: rest
  | x :: rest, S i' => x :: set rest i' v
  end.

Definition quarterRound (a b c d : Z) : Z * Z * Z * Z :=
  let a := w32 (a + b) in let d := rotl32 (Z.lxor d a) 16 in
  let c := w32 (c + d) in let b := rotl32 (Z.lxor b c) 12 in
  let a := w32 (a + b) in let d := rotl32 (Z.lxor d a) 8 in
  let c := w32 (c + d) in let b := rotl32 (Z.lxor b c) 7 in
  (a, b, c, d).

Definition qr (i j k l : nat) (st : list Z) : list Z :=
  match quarterRound (word st i) (word st j) (word st k) (word st l) with
  | (a, b, c, d) => set (set (set (set st i a) j b) k c) l d
  end.

Definition doubleRound (st : list Z) : list Z :=
  let st := qr 0 4 8 12 st in
  let st := qr 1 5 9 13 st in
  let st := qr 2 6 10 14 st in
  let st := qr 3 7 11 15 st in
  let st := qr 0 5 10 15 st in
  let st := qr 1 6 11 12 st in
  let st := qr 2 7 8 13 st in
  qr 3 4 9 14 st.

Definition rounds (st : list Z) : list Z :=
  Nat.iter 10 doubleRound st.

(** The constants "expand 32-byte k". *)
Definition sigma : list Z := [0x61707865; 0x3320646e; 0x79622d32; 0x6b206574].

Fixpoint le32 (bs : bytes) : Z :=
  match bs with
  | [] => 0
  | b :: rest => Z_of_byte b + 256 * le32 rest
  end.

Definition words (n : nat) (bs : bytes) : list Z :=
  map (fun i => le32 (firstn 4 (skipn (4 * i) bs))) (seq 0 n).

Definition word_bytes (v : Z) : bytes :=
  map (fun k => byte_of_Z (Z.shiftr v (8 * Z.of_nat k))) (seq 0 4).

(** One 64-byte block of key stream. *)
Definition block (key : list Z) (counter : Z) (nonce : list Z) : bytes :=
  let init := sigma ++ key ++ [w32 counter] ++ nonce in
  let st := rounds init in
  flat_map (fun i => word_bytes (w32 (word init i + word st i))) (seq 0 16).

(** [HChaCha20]: the sub-key of a 32-byte key and a 16-byte nonce. *)
Definition HChaCha20 (key nonce : bytes) : bytes :=
  let st := rounds (sigma ++ words 8 key ++ words 4 nonce) in
  flat_map (fun i => word_bytes (word st i)) [0; 1; 2; 3; 12; 13; 14; 15]%nat.

Record Cipher : Type := mkCipher {
  key : list Z;     (* [8]uint32 *)
  nonce : list Z    (* [3]uint32 *)
}.

(** [NewUnauthenticatedCipher]: [None] is one of the errors "wrong key
    size" and "wrong nonce size". *)
Definition NewUnauthenticatedCipher (key nonce : bytes) : option Cipher :=
  if negb (length key =? KeySize)%nat then None
  else if (length nonce =? NonceSizeX)%nat then
    let key := HChaCha20 key (firstn 16 nonce) in
    let cNonce := repeat x00 4 ++ firstn 8 (skipn 16 nonce) in
    Some (mkCipher (words 8 key) (words 3 cNonce))
  else if negb (length nonce =? NonceSize)%nat then None
  else Some (mkCipher (words 8 key) (words 3 nonce)).

(** Byte [i] of the key stream of a fresh cipher (block counter 0). *)
Definition keyStreamByte (c : Cipher) (i : nat) : byte :=
  nth (i mod 64) (block (key c) (Z.of_nat (i / 64)) (nonce c)) x00.

Fixpoint xorFrom (c : Cipher) (i : nat) (src : bytes) : bytes :=
  match src with
  | [] => []
  | b :: rest => byte_xor b (keyStreamByte c i) :: xorFrom c (S i) rest
  end.

(** [XORKeyStream(dst, src)] on a fresh cipher, [dst] at least as long
    as [src]: the bytes written to [dst].  The block counter is 32 bits
    wide and the library refuses more than 2^32 blocks of key stream;
    that limit is outside the model. *)
Definition XORKeyStream (c : Cipher) (src : bytes) : bytes :=
  xorFrom c 0 src.

End chacha20.

(** ** crypto/rand *)

Module rand.

(** The process-wide random source: a reader that fails, or one that
    delivers the bytes [f 0], [f 1], ... *)
Definition Reader : Type := option (nat -> byte).

(** [rand.Read(b)] for a buffer of [n] bytes: the buffer is filled whole
    or an error is returned. *)
Definition Read (r : Reader) (n : nat) : option bytes :=
  option_map (fun f => map f (seq 0 n)) r.

End rand.

(** ** Slices *)

(** [s[lo:hi]], used within bounds. *)
Definition slice (s : bytes) (lo hi : nat) : bytes :=
  firstn (hi - lo) (skipn lo s).

(** [copy(dst, src)]: the contents of [dst] afterwards; the shorter length
    decides how much is copied. *)
Definition copy (dst src : bytes) : bytes :=
  firstn (length dst) src ++ skipn (length src) dst.

(** [s[0] = v] on a non-empty slice. *)
Definition set0 (s : bytes) (v : byte) : bytes :=
  match s with
  | [] => []
  | _ :: rest => v :: rest
  end.

(** ** nip44: encryption *)

Definition encryptWithNonce (message key nonce : bytes) : result bytes :=
  match chacha20.NewUnauthenticatedCipher key nonce with
  | None => Err ErrCreatingCipher
  | Some cipher =>
      let msg := chacha20.XORKeyStream cipher message in
      let payload := repeat x00 (1 + 24 + length msg) in
      let payload := set0 payload x01 in
      let payload :=
        firstn 1 payload ++ copy (slice payload 1 25) nonce ++ skipn 25 payload in
      let payload := firstn 25 payload ++ copy (skipn 25 payload) msg in
      Ok (base64.EncodeToString payload)
  end.

Definition Encrypt (message key : bytes) (random : rand.Reader) : result bytes :=
  match rand.Read random 24 with
  | None => Err ErrCreatingNonce
  | Some nonce => encryptWithNonce message key nonce
  end.

Definition Decrypt (payload key : bytes) : result bytes :=
  match base64.DecodeString payload with
  | None => Err ErrInvalidBase64
  | Some data =>
      v <- index data 0 ;;
      if negb (byte_eqb v x01) then Err (ErrUnknownVersion v)
      else if (length data <=? 25)%nat then Err (ErrPayloadTooSmall (length data))
      else
        let nonce := slice data 1 25 in
        let msg := skipn 25 data in
        match chacha20.NewUnauthenticatedCipher key nonce with
        | None => Err ErrCreatingCipher
        | Some cipher => Ok (chacha20.XORKeyStream cipher msg)
        end
  end.

(** ** crypto/sha256 *)

Module sha256.

Definition w32 (z : Z) : Z := z mod 2 ^ 32.

Definition rotr (v n : Z) : Z :=
  Z.lor (Z.shiftr v n) (w32 (Z.shiftl v (32 - n))).

Definition not32 (v : Z) : Z := Z.lxor v (Z.ones 32).

Definition Ch (x y z : Z) : Z := Z.lxor (Z.land x y) (Z.land (not32 x) z).
Definition Maj (x y z : Z) : Z :=
  Z.lxor (Z.lxor (Z.land x y) (Z.land x z)) (Z.land y z).
Definition bigSigma0 (x : Z) : Z := Z.lxor (Z.lxor (rotr x 2) (rotr x 13)) (rotr x 22).
Definition bigSigma1 (x : Z) : Z := Z.lxor (Z.lxor (rotr x 6) (rotr x 11)) (rotr x 25).
Definition smallSigma0 (x : Z) : Z := Z.lxor (Z.lxor (rotr x 7) (rotr x 18)) (Z.shiftr x 3).
Definition smallSigma1 (x : Z) : Z := Z.lxor (Z.lxor (rotr x 17) (rotr x 19)) (Z.shiftr x 10).

Definition primes : list Z :=
  [2; 3; 5; 7; 11; 13; 17; 19; 23; 29; 31; 37; 41; 43; 47; 53; 59; 61; 67;
   71; 73; 79; 83; 89; 97; 101; 103; 107; 109; 113; 127; 131; 137; 139; 149;
   151; 157; 163; 167; 173; 179; 181; 191; 193; 197; 199; 211; 223; 227;
   229; 233; 239; 241; 251; 257; 263; 269; 271; 277; 281; 283; 293; 307;
   311].

(** The integer cube root below 2^36, one bit at a time. *)
Definition cbrt (n : Z) : Z :=
  fold_left (fun r k =>
               let r' := r + 2 ^ Z.of_nat k in
               if r' * r' * r' <=? n then r' else r)
            (rev (seq 0 36)) 0.

(** The round constants: the first 32 bits of the fractional parts of
    the cube roots of the first 64 primes. *)
Definition K : list Z :=
  Eval vm_compute in map (fun q => w32 (cbrt (q * 2 ^ 96))) primes.

(** The initial hash value: the same for the square roots of the first
    eight primes. *)
Definition H0 : list Z :=
  Eval vm_compute in map (fun q => w32 (Z.sqrt (q * 2 ^ 64))) (firstn 8 primes).

(** Padding: a one bit, zeros, and the bit length on 64 bits, up to a
    multiple of 64 bytes. *)
Definition pad (msg : bytes) : bytes :=
  let l := length msg in
  msg ++ [x80] ++ repeat x00 ((119 - l mod 64) mod 64)
      ++ be_bytes 8 (8 * Z.of_nat l).

(** One round; [win] holds the sixteen schedule words from the current
    one on. *)
Definition step (acc : list Z * list Z) (k : Z) : list Z * list Z :=
  let (win, v) := acc in
  match v with
  | [a; b; c; d; e; f; g; h] =>
      let w i := nth i win 0 in
      let t1 := w32 (h + bigSigma1 e + Ch e f g + k + w 0%nat) in
      let t2 := w32 (bigSigma0 a + Maj a b c) in
      let next :=
        w32 (smallSigma1 (w 14%nat) + w 9%nat + smallSigma0 (w 1%nat) + w 0%nat) in
      (tl win ++ [next], [w32 (t1 + t2); a; b; c; w32 (d + t1); e; f; g])
  | _ => acc
  end.

Definition compress (h : list Z) (blk : bytes) : list Z :=
  let win := map (fun i => be_Z (firstn 4 (skipn (4 * i) blk))) (seq 0 16) in
  let v := snd (fold_left step K (win, h)) in
  map (fun i => w32 (nth i h 0 + nth i v 0)) (seq 0 8).

Fixpoint blocks (n : nat) (h : list Z) (msg : bytes) : list Z :=
  match n with
  | O => h
  | S n' => blocks n' (compress h (firstn 64 msg)) (skipn 64 msg)
  end.

(** [sha256.Sum256]. *)
Definition Sum256 (msg : bytes) : bytes :=
  let m := pad msg in
  flat_map (be_bytes 4) (blocks (length m / 64) H0 m).

End sha256.

(** ** btcec: the curve y^2 = x^3 + 7 over a prime field

    The library is written for secp256k1.  The model takes the field
    prime, the group order and the base point as a parameter, so that the
    algebra can be exercised on a small curve of the same shape; [S256] is
    the curve of the program.  Points are affine, [None] is the point at
    infinity, and field elements are integers in [0, p). *)

Module btcec.

Record Curve : Type := mkCurve {
  P : Z;      (* the field prime *)
  N : Z;      (* the order of the base point *)
  Gx : Z;
  Gy : Z
}.

Definition S256 : Curve :=
  mkCurve
    (2 ^ 256 - 2 ^ 32 - 977)
    0xFFFFFFFFFFFFFFFFFFFFFFFFFFFFFFFEBAAEDCE6AF48A03BBFD25E8CD0364141
    0x79BE667EF9DCBBAC55A06295CE870B07029BFCDB2DCE28D959F2815B16F81798
    0x483ADA7726A3C4655DA4FBFC0E1108A8FD17B448A68554199C47D08FFB10D4B8.

Definition Point : Type := option (Z * Z).

Section OnCurve.

Variable c : Curve.

Definition G : Point := Some (Gx c, Gy c).

(** Modular exponentiation by squaring. *)
Fixpoint fpow (a : Z) (e : positive) : Z :=
  match e with
  | xH => a mod P c
  | xO e' => let h := fpow a e' in (h * h) mod P c
  | xI e' => let h := fpow a e' in (h * h mod P c * a) mod P c
  end.

(** [x^3 + 7]. *)
Definition rhs (x : Z) : Z := (x * x * x + 7) mod P c.

(** [FieldVal.SquareRootVal]: the candidate root a^((p+1)/4) and
    whether its square is the operand. *)
Definition SquareRootVal (a : Z) : Z * bool :=
  let r := match (P c + 1) / 4 with
           | Zpos e => fpow a e
           | _ => 0
           end in
  (r, (r * r) mod P c =? a mod P c).

(** [DecompressY]: the root of x^3 + 7 of the requested parity. *)
Definition DecompressY (x : Z) (odd : bool) : option Z :=
  match SquareRootVal (rhs x) with
  | (y, true) =>
      if negb (Bool.eqb (Z.odd y) odd) then Some ((P c - y) mod P c)
      else Some y
  | (_, false) => None
  end.

Definition isOnCurve (pt : Z * Z) : bool :=
  let (x, y) := pt in (y * y) mod P c =? rhs x.

(** A point of the curve in normal form. *)
Definition validPoint (pt : Point) : bool :=
  match pt with
  | None => true
  | Some (x, y) =>
      (0 <=? x) && (x <? P c) && (0 <=? y) && (y <? P c) && isOnCurve (x, y)
  end.

Definition neg (pt : Point) : Point :=
  match pt with
  | None => None
  | Some (x, y) => Some (x, (P c - y) mod P c)
  end.

(** The group law (chord and tangent); the library computes it in
    Jacobian coordinates and normalises at the end. *)
Definition add (p q : Point) : Point :=
  match p, q with
  | None, _ => q
  | _, None => p
  | Some (x1, y1), Some (x2, y2) =>
      if (x1 =? x2) && ((y1 + y2) mod P c =? 0) then None
      else
        let l :=
          if x1 =? x2
          then (3 * x1 * x1 * Z.invmod (2 * y1) (P c)) mod P c
          else ((y2 - y1) * Z.invmod (x2 - x1) (P c)) mod P c in
        let x3 := (l * l - x1 - x2) mod P c in
        Some (x3, (l * (x1 - x3) - y1) mod P c)
  end.

(** [ScalarMultNonConst]: k times the point, for a scalar in [0, N). *)
Definition mul (k : Z) (pt : Point) : Point :=
  match k with
  | Zpos e => Pos.iter_op add e pt
  | _ => None
  end.

(** [ToAffine] then [X]: the point at infinity has coordinates 0. *)
Definition xOf (pt : Point) : Z :=
  match pt with
  | None => 0
  | Some (x, _) => x
  end.

(** [PrivKeyFromBytes]: the first 32 bytes as a big-endian integer,
    reduced modulo the group order.  No input is refused. *)
Definition PrivKeyFromBytes (privKeyBytes : bytes) : Z :=
  be_Z (firstn 32 privKeyBytes) mod N c.

(** [ParsePubKey], for a first byte 2 or 3 (the compressed formats).
    With these first bytes any length but 33 is refused; the
    uncompressed and hybrid formats (first byte 4, 6 or 7) are not
    modelled since the program always passes the first byte 2. *)
Definition ParsePubKey (serialized : bytes) : option (Z * Z) :=
  match serialized with
  | format :: xBytes =>
      if negb ((length xBytes =? 32)%nat) then None
      else if negb (byte_eqb format x02 || byte_eqb format x03) then None
      else
        let x := be_Z xBytes in
        if P c <=? x then None
        else
          match DecompressY x (byte_eqb format x03) with
          | Some y => Some (x, y)
          | None => None
          end
  | [] => None
  end.

(** [GenerateSharedSecret]: the x coordinate of the product, on 32
    bytes. *)
Definition GenerateSharedSecret (privKey : Z) (pubKey : Z * Z) : bytes :=
  be_bytes 32 (xOf (mul privKey (Some pubKey))).

End OnCurve.

(** The curve y^2 = x^3 + 7 over the field of 43 elements: 31 points,
    generated by (2, 12). *)
Definition tiny : Curve := mkCurve 43 31 2 12.

End btcec.

(** ** nip44: shared secrets *)

Definition ComputeSharedSecretOn (c : btcec.Curve) (pub sk : bytes) : result bytes :=
  match hex.DecodeString sk with
  | None => Err ErrDecodingSenderPrivateKey
  | Some privKeyBytes =>
      let privKey := btcec.PrivKeyFromBytes c privKeyBytes in
      match hex.DecodeString (str "02" ++ pub) with
      | None => Err ErrDecodingReceiverPublicKey
      | Some pubKeyBytes =>
          match btcec.ParsePubKey c pubKeyBytes with
          | None => Err ErrParsingReceiverPublicKey
          | Some pubKey =>
              let sharedSecret := btcec.GenerateSharedSecret c privKey pubKey in
              let hash := sha256.Sum256 sharedSecret in
              Ok hash
          end
      end
  end.

Definition ComputeSharedSecret (pub sk : bytes) : result bytes :=
  ComputeSharedSecretOn btcec.S256 pub sk.

(** The key pair of a private scalar: the private key and the x-only
    public key, both as 64 hexadecimal digits. *)
Definition privateKeyHex (k : Z) : bytes := hex.EncodeToString (be_bytes 32 k).

Definition publicKeyHex (c : btcec.Curve) (k : Z) : bytes :=
  hex.EncodeToString (be_bytes 32 (btcec.xOf (btcec.mul c k (btcec.G c)))).

(** Events that differ in the stored identifier only. *)
Definition withID (evt : Event) (id : bytes) : Event :=
  mkEvent id (PubKey evt) (CreatedAt evt) (Kind evt) (Tags evt) (Content evt) (Sig evt).

Fixpoint bytes_eqb (a b : bytes) : bool :=
  match a, b with
  | [], [] => true
  | x :: a', y :: b' => byte_eqb x y && bytes_eqb a' b'
  | _, _ => false
  end.

(** ** Auxiliary definitions of the statements *)

(** The 26 bytes in front of the decimal length: 0x19, "Ethereum Signed
    Message:", line feed. *)
Definition idPrefix : bytes :=
  [x19] ++ str "Ethereum Signed Message:" ++ [x0a].

(** The random source of the examples and a key of 32 bytes. *)
Definition exampleKey : bytes := map (fun i => byte_of_Z (Z.of_nat i)) (seq 0 32).

Definition exampleRandom : rand.Reader :=
  Some (fun i => byte_of_Z (Z.of_nat (7 * i + 3))).

(** The outcomes of [Decrypt] by kind. *)
Definition isUnknownVersion (r : result bytes) : Prop :=
  exists v, r = Err (ErrUnknownVersion v).

Definition isTooSmall (r : result bytes) : Prop :=
  exists n, r = Err (ErrPayloadTooSmall n).

(** The x coordinate of the base point of secp256k1, as a public key. *)
Definition basePointHex : bytes :=
  str "79be667ef9dcbbac55a06295ce870b07029bfcdb2dce28d959f2815b16f81798".

Definition zeroKeyHex : bytes :=
  str "0000000000000000000000000000000000000000000000000000000000000000".

(** What the symmetry of the derivation relies on: arithmetic in a prime
    field in which the square-root formula finds the roots of squares,
    and the abelian group of the points under [btcec.add], with a base
    point of order [N].  For secp256k1 these are the properties the
    library is built on; they are assumptions about [c] here. *)
Record CurveLaws (c : btcec.Curve) : Prop := mkCurveLaws {
  prime_P : Z.prime (btcec.P c);
  P_fits : btcec.P c < 2 ^ 256;
  N_range : 0 < btcec.N c <= 2 ^ 256;
  G_valid : btcec.validPoint c (btcec.G c) = true;
  G_order : forall k, 0 < k < btcec.N c -> btcec.mul c k (btcec.G c) <> None;
  sqrt_complete :
    forall y, 0 <= y < btcec.P c ->
      snd (btcec.SquareRootVal c ((y * y) mod btcec.P c)) = true;
  add_valid :
    forall p q, btcec.validPoint c p = true -> btcec.validPoint c q = true ->
      btcec.validPoint c (btcec.add c p q) = true;
  add_assoc :
    forall p q r, btcec.validPoint c p = true -> btcec.validPoint c q = true ->
      btcec.validPoint c r = true ->
      btcec.add c (btcec.add c p q) r = btcec.add c p (btcec.add c q r);
  add_comm :
    forall p q, btcec.validPoint c p = true -> btcec.validPoint c q = true ->
      btcec.add c p q = btcec.add c q p
}.

(** Equality of points, and the list of all points of a curve over a
    small field. *)
Definition point_eqb (a b : btcec.Point) : bool :=
  match a, b with
  | None, None => true
  | Some (x1, y1), Some (x2, y2) => (x1 =? x2) && (y1 =? y2)
  | _, _ => false
  end.

Definition Zrange (n : Z) : list Z := map Z.of_nat (seq 0 (Z.to_nat n)).

(** All points of a curve over a small field. *)
Definition points (c : btcec.Curve) : list btcec.Point :=
  filter (btcec.validPoint c)
    (None :: flat_map (fun x => map (fun y => Some (x, y)) (Zrange (btcec.P c)))
                      (Zrange (btcec.P c))).

(** The 31 points of the small curve. *)
Definition tinyPoints : list btcec.Point :=
  Eval vm_compute in points btcec.tiny.

(** [sep]-separated concatenation. *)
Fixpoint join (sep : bytes) (parts : list bytes) : bytes :=
  match parts with
  | [] => []
  | [x] => x
  | x :: rest => x ++ sep ++ join sep rest
  end.

(** Position-wise XOR of [a] with [d]; where [d] ends, [a] is kept. *)
Fixpoint xor_bytes (a d : bytes) : bytes :=
  match a, d with
  | x :: a', y :: d' => byte_xor x y :: xor_bytes a' d'
  | _, _ => a
  end.

(** The comparison of the expected characters with a string, one
    character after the other from position [pos] of a string of [total]
    characters: a character that is missing is an index out of range. *)
Fixpoint compareFrom (pos total : nat) (expected s : bytes) : result bool :=
  match expected with
  | [] => Ok true
  | c :: expected' =>
      match s with
      | [] => Panic (IndexOutOfRange pos total)
      | d :: s' =>
          if byte_eqb c d then compareFrom (S pos) total expected' s'
          else Ok false
      end
  end.

(** * Properties *)

(** ** Bytes *)

Lemma Z_of_byte_range (b : byte) : 0 <= Z_of_byte b < 256.
Proof.
  unfold Z_of_byte. pose proof (Byte.to_N_bounded b). lia.
Qed.

Lemma byte_of_Z_of_byte (b : byte) : byte_of_Z (Z_of_byte b) = b.
Proof.
  unfold byte_of_Z. rewrite Z.mod_small by apply Z_of_byte_range.
  unfold Z_of_byte. rewrite N2Z.id, Byte.of_to_N. reflexivity.
Qed.

Lemma Z_of_byte_of_Z (z : Z) : Z_of_byte (byte_of_Z z) = z mod 256.
Proof.
  unfold byte_of_Z, Z_of_byte.
  assert (Hr : 0 <= z mod 256 < 256) by (apply Z.mod_pos_bound; lia).
  destruct (Byte.of_N (Z.to_N (z mod 256))) as [b|] eqn:E.
  - apply Byte.to_of_N in E. rewrite E. lia.
  - apply Byte.of_N_None_iff in E. lia.
Qed.

Lemma byte_of_Z_small (b : byte) (z : Z) : z = Z_of_byte b -> byte_of_Z z = b.
Proof. intros ->. apply byte_of_Z_of_byte. Qed.

Lemma byte_eqb_refl (b : byte) : byte_eqb b b = true.
Proof. unfold byte_eqb. now apply Byte.byte_dec_lb. Qed.

Lemma byte_eqb_eq (a b : byte) : byte_eqb a b = true <-> a = b.
Proof.
  unfold byte_eqb. split.
  - apply Byte.byte_dec_bl.
  - apply Byte.byte_dec_lb.
Qed.

Lemma bytes_eqb_eq (a b : bytes) : bytes_eqb a b = true <-> a = b.
Proof.
  revert b. induction a as [|x a IH]; intros [|y b]; simpl; try easy.
  rewrite andb_true_iff, byte_eqb_eq, IH. split.
  - intros [-> ->]. reflexivity.
  - intros [= -> ->]. auto.
Qed.

(** ** Test vectors of the primitives *)

Example Keccak256_vectors :
  hex.EncodeToString (keccak.Keccak256 [])
  = str "c5d2460186f7233c927e7db2dcc703c0e500b653ca82273b7bfad8045d85a470"
  /\ hex.EncodeToString (keccak.Keccak256 (str "abc"))
     = str "4e03657aea45a94fc7d47ba826c8d667c0d1e6e33a64a036ec44f58fa12d6c45".
Proof. vm_compute. split; reflexivity. Qed.

Example Sum256_vectors :
  hex.EncodeToString (sha256.Sum256 [])
  = str "e3b0c44298fc1c149afbf4c8996fb92427ae41e4649b934ca495991b7852b855"
  /\ hex.EncodeToString (sha256.Sum256 (str "abc"))
     = str "ba7816bf8f01cfea414140de5dae2223b00361a396177a9cb410ff61f20015ad".
Proof. vm_compute. split; reflexivity. Qed.

(** RFC 8439, 2.1.1 and 2.3.2: the quarter round, and the block of the
    key 00..1f, counter 1 and nonce 00 00 00 09 00 00 00 4a 00 00 00 00;
    the sub-key of the XChaCha20 draft, 2.2.1. *)
Example chacha20_vectors :
  chacha20.quarterRound 0x11111111 0x01020304 0x9b8d6f43 0x01234567
  = (0xea2a92f4, 0xcb1cf8ce, 0x4581472e, 0x5881c4bb)
  /\ hex.EncodeToString
       (firstn 16
          (chacha20.block (chacha20.words 8 exampleKey) 1
             (chacha20.words 3
                [x00; x00; x00; x09; x00; x00; x00; x4a; x00; x00; x00; x00])))
     = str "10f1e7e4d13b5915500fdd1fa32071c4"
  /\ hex.EncodeToString
       (chacha20.HChaCha20 exampleKey
          [x00; x00; x00; x09; x00; x00; x00; x4a;
           x00; x00; x00; x00; x31; x41; x59; x27])
     = str "82413b4227b27bfed30e42508a877d73a0f9e4d58a74a853c12ec41326d3ecdc".
Proof. vm_compute. split; [|split]; reflexivity. Qed.

(** The base point of secp256k1 is on the curve, and twice the base
    point has the known x coordinate. *)
Example S256_vectors :
  btcec.validPoint btcec.S256 (btcec.G btcec.S256) = true
  /\ publicKeyHex btcec.S256 2
     = str "c6047f9441ed7d6d3045406e95c07cd85c778e4b8cef3ca7abac09b95c709ee5".
Proof. vm_compute. split; reflexivity. Qed.

(** ** Canonical bytes *)

Lemma escapeString_app (dst s : bytes) :
  escapeString dst s = dst ++ escapeString [] s.
Proof. reflexivity. Qed.

Lemma serializeTagItems_app (tag : list bytes) :
  forall i dst, serializeTagItems i tag dst = dst ++ serializeTagItems i tag [].
Proof.
  induction tag as [|s tag IH]; intros i dst; simpl.
  - now rewrite app_nil_r.
  - destruct (0 <? i)%nat; unfold escapeString;
      rewrite !(IH (S i) (_ ++ _)), <- ?app_assoc; reflexivity.
Qed.

Lemma serializeTags_app (tags : list (list bytes)) :
  forall i dst, serializeTags i tags dst = dst ++ serializeTags i tags [].
Proof.
  induction tags as [|tag tags IH]; intros i dst; simpl.
  - now rewrite app_nil_r.
  - destruct (0 <? i)%nat;
      rewrite !(IH (S i) (_ ++ _)), !(serializeTagItems_app tag 0 (_ ++ _)),
        <- ?app_assoc; reflexivity.
Qed.

(** The layout of the canonical bytes: the public key sits between two
    quote characters as it is, the tag items and the content go through
    [escapeString]. *)
Lemma Serialize_layout (evt : Event) :
  Serialize evt =
    lit "[0,'" ++ PubKey evt ++ lit "',"
      ++ strconv.FormatInt (CreatedAt evt) ++ str ","
      ++ strconv.Itoa (Kind evt) ++ str ",["
      ++ serializeTags 0 (Tags evt) [] ++ str "],"
      ++ escapeString [] (Content evt) ++ str "]".
Proof.
  unfold Serialize, serializeEventInto.
  rewrite escapeString_app, serializeTags_app.
  rewrite <- !app_assoc. reflexivity.
Qed.

(** The tags in the canonical bytes, as joined lists. *)
Lemma join_cons (sep x : bytes) (l : list bytes) :
  join sep (x :: l) = x ++ flat_map (fun y => sep ++ y) l.
Proof.
  revert x. induction l as [|y l IH]; intros x.
  - cbn [join flat_map]. now rewrite app_nil_r.
  - change (join sep (x :: y :: l)) with (x ++ sep ++ join sep (y :: l)).
    rewrite IH. cbn [flat_map]. now rewrite <- app_assoc.
Qed.

Lemma flat_map_of_map {A B C} (f : A -> B) (g : B -> list C) (l : list A) :
  flat_map g (map f l) = flat_map (fun a => g (f a)) l.
Proof. induction l as [|a l IH]; cbn [map flat_map]; now rewrite ?IH. Qed.

Lemma serializeTagItems_pos (tag : list bytes) :
  forall i, (0 < i)%nat ->
    serializeTagItems i tag []
    = flat_map (fun s => str "," ++ escapeString [] s) tag.
Proof.
  induction tag as [|s tag IH]; intros i Hi; [reflexivity|].
  cbn [serializeTagItems flat_map].
  replace (0 <? i)%nat with true by (symmetry; apply Nat.ltb_lt; exact Hi).
  rewrite serializeTagItems_app, IH by lia.
  rewrite escapeString_app, <- app_assoc. reflexivity.
Qed.

Lemma serializeTagItems_join (tag : list bytes) :
  serializeTagItems 0 tag [] = join (str ",") (map (escapeString []) tag).
Proof.
  destruct tag as [|s tag]; [reflexivity|].
  cbn [serializeTagItems map Nat.ltb Nat.leb].
  rewrite serializeTagItems_app, serializeTagItems_pos by lia.
  rewrite join_cons, flat_map_of_map. reflexivity.
Qed.

Lemma serializeTags_pos (tags : list (list bytes)) :
  forall i, (0 < i)%nat ->
    serializeTags i tags []
    = flat_map (fun tag =>
                  str "," ++ str "["
                    ++ join (str ",") (map (escapeString []) tag) ++ str "]")
               tags.
Proof.
  induction tags as [|tag tags IH]; intros i Hi; [reflexivity|].
  cbn [serializeTags flat_map].
  replace (0 <? i)%nat with true by (symmetry; apply Nat.ltb_lt; exact Hi).
  rewrite serializeTags_app, IH by lia.
  rewrite serializeTagItems_app, serializeTagItems_join.
  rewrite <- !app_assoc. reflexivity.
Qed.

Lemma serializeTags_join (tags : list (list bytes)) :
  serializeTags 0 tags []
  = join (str ",")
      (map (fun tag =>
              str "[" ++ join (str ",") (map (escapeString []) tag) ++ str "]")
           tags).
Proof.
  destruct tags as [|tag tags]; [reflexivity|].
  cbn [serializeTags map Nat.ltb Nat.leb].
  rewrite serializeTags_app, serializeTags_pos by lia.
  rewrite serializeTagItems_app, serializeTagItems_join.
  rewrite join_cons, flat_map_of_map, <- !app_assoc. reflexivity.
Qed.

(** C5: the canonical bytes of the example event (public key 64 times
    "a", created_at 1700000000, kind 1, tags [["e","abc"]], content "hi")
    are exactly [0,"aa...a",1700000000,1,[["e","abc"]],"hi"], whatever the
    identifier and the signature, and so at every call. *)
Theorem Serialize_example (id sig : bytes) :
  Serialize (mkEvent id (repeat x61 64) 1700000000 1
               [[str "e"; str "abc"]] (str "hi") sig)
  = lit "[0,'aaaaaaaaaaaaaaaaaaaaaaaaaaaaaaaaaaaaaaaaaaaaaaaaaaaaaaaaaaaaaaaa',1700000000,1,[['e','abc']],'hi']".
Proof. reflexivity. Qed.

(** C10: in the canonical bytes the public key is copied between the two
    quote characters without escaping, whatever its characters: the bytes
    that follow the first four are the public key as it is.  Only the
    tag items and the content go through [escapeString]: each item of each
    tag, and the content, stands in the canonical bytes as [escapeString]
    renders it, and everything else is copied or formatted as a number. *)
Theorem Serialize_pubkey_verbatim (evt : Event) :
  firstn (length (PubKey evt)) (skipn 4 (Serialize evt)) = PubKey evt
  /\ Serialize evt =
       lit "[0,'" ++ PubKey evt ++ lit "',"
         ++ strconv.FormatInt (CreatedAt evt) ++ str ","
         ++ strconv.Itoa (Kind evt) ++ str ",["
         ++ join (str ",")
              (map (fun tag =>
                      str "[" ++ join (str ",") (map (escapeString []) tag)
                        ++ str "]")
                   (Tags evt))
         ++ str "]," ++ escapeString [] (Content evt) ++ str "]".
Proof.
  split; [|rewrite Serialize_layout, serializeTags_join; reflexivity].
  rewrite Serialize_layout. simpl.
  rewrite firstn_app, Nat.sub_diag, firstn_all. simpl. apply app_nil_r.
Qed.

(** A public key made of a quote, a backslash and a line feed is copied
    as it is, where the same content is escaped. *)
Example Serialize_pubkey_unescaped :
  Serialize (mkEvent [] [x22; x5c; x0a] 0 0 [] [x22; x5c; x0a] [])
  = lit "[0,'" ++ [x22; x5c; x0a] ++ lit "',0,0,[],'\'\\\n']".
Proof. reflexivity. Qed.

(** ** Identifiers *)

Lemma Sprintf_prefixFormat (n : Z) (message : bytes) :
  fmt.Sprintf prefixFormat [fmt.Int n; fmt.Bytes message]
  = Some (idPrefix ++ strconv.FormatInt n ++ message).
Proof.
  unfold prefixFormat, idPrefix. simpl. rewrite app_nil_r. reflexivity.
Qed.

Lemma idHash_eq (evt : Event) :
  idHash evt =
    keccak.Keccak256
      (idPrefix ++ strconv.FormatInt (Z.of_nat (length (Serialize evt)))
         ++ Serialize evt).
Proof.
  unfold idHash. rewrite Sprintf_prefixFormat. reflexivity.
Qed.

Lemma Keccak256_length (msg : bytes) : length (keccak.Keccak256 msg) = 32%nat.
Proof. reflexivity. Qed.

Lemma idHash_length (evt : Event) : length (idHash evt) = 32%nat.
Proof. rewrite idHash_eq. apply Keccak256_length. Qed.

Lemma idHash_withID (evt : Event) (id : bytes) : idHash (withID evt id) = idHash evt.
Proof. reflexivity. Qed.

Lemma GetID_withID (evt : Event) (id : bytes) : GetID (withID evt id) = GetID evt.
Proof. reflexivity. Qed.

Lemma EncodeToString_length (h : bytes) :
  length (hex.EncodeToString h) = (2 * length h)%nat.
Proof. induction h; simpl; lia. Qed.

(** C3: the identifier is the lowercase hexadecimal form of the Keccak-256
    digest of the constant prefix (0x19, "Ethereum Signed Message:", line
    feed), the decimal byte count of the canonical bytes, and the
    canonical bytes, with nothing in between. *)
Theorem GetID_spec (evt : Event) :
  GetID evt =
    hex.EncodeToString
      (keccak.Keccak256
         ([x19] ++ str "Ethereum Signed Message:" ++ [x0a]
            ++ strconv.FormatInt (Z.of_nat (length (Serialize evt)))
            ++ Serialize evt))
  /\ length (GetID evt) = 64%nat.
Proof.
  split.
  - unfold GetID. rewrite idHash_eq. reflexivity.
  - unfold GetID. now rewrite EncodeToString_length, idHash_length.
Qed.

(** The identifier of the example event. *)
Example GetID_example :
  GetID example_event
  = str "76d8e0244c507a4454ce3250f9499d8e82995dfd716414dc88c495d891fab5bc".
Proof. vm_compute. reflexivity. Qed.

Lemma index_app_at (pre rest : bytes) (c : byte) (i : nat) :
  i = length pre -> index (pre ++ c :: rest) i = Ok c.
Proof.
  intros ->. unfold index.
  rewrite nth_error_app2, Nat.sub_diag by lia. reflexivity.
Qed.

(** The loop compares the hexadecimal digits of the digest with the
    characters of the identifier at the same positions, and looks at
    nothing behind them. *)
Lemma CheckID_loop_spec (h : bytes) :
  forall hpre idpre id rest,
    length idpre = (2 * length hpre)%nat ->
    length id = (2 * length h)%nat ->
    CheckID_loop (length h) (length hpre) (hpre ++ h) (idpre ++ id ++ rest)
    = Ok (bytes_eqb (hex.EncodeToString h) id).
Proof.
  induction h as [|b h IH]; intros hpre idpre id rest Hpre Hid.
  - destruct id; [reflexivity | discriminate].
  - destruct id as [|c1 [|c2 id]]; try (simpl in Hid; lia).
    cbn [CheckID_loop length app].
    rewrite nth_middle.
    rewrite (index_app_at idpre _ c1) by lia.
    cbn [bind hex.EncodeToString bytes_eqb].
    destruct (byte_eqb _ c1); [|reflexivity].
    replace (idpre ++ c1 :: c2 :: id ++ rest)
      with ((idpre ++ [c1]) ++ c2 :: id ++ rest)
      by (rewrite <- app_assoc; reflexivity).
    rewrite (index_app_at (idpre ++ [c1]) _ c2)
      by (rewrite length_app; simpl; lia).
    cbn [bind negb andb].
    destruct (byte_eqb _ c2); [|reflexivity].
    cbn [negb andb].
    specialize (IH (hpre ++ [b]) (idpre ++ [c1; c2]) id rest).
    rewrite !length_app in IH. cbn [length] in IH.
    rewrite <- !app_assoc in IH. cbn [app] in IH.
    replace (length hpre + 1)%nat with (S (length hpre)) in IH by lia.
    rewrite <- app_assoc. cbn [app].
    apply IH; simpl in Hid; lia.
Qed.

(** On an identifier of 64 characters [CheckID] is the comparison of
    [GetID] with the identifier. *)
Lemma CheckID_loop_32 (h id rest : bytes) :
  length h = 32%nat -> length id = 64%nat ->
  CheckID_loop 32 0 h (id ++ rest) = Ok (bytes_eqb (hex.EncodeToString h) id).
Proof.
  intros Hh Hid.
  pose proof (CheckID_loop_spec h [] [] id rest) as L.
  rewrite Hh in L. cbn [app length] in L. apply L; lia.
Qed.

Lemma CheckID_sized (evt : Event) :
  length (ID evt) = 64%nat ->
  CheckID evt = Ok (bytes_eqb (GetID evt) (ID evt)).
Proof.
  intros H. unfold CheckID, GetID.
  pose proof (idHash_length evt) as Hh. revert Hh.
  generalize (idHash evt). intros h Hh.
  rewrite <- (app_nil_r (ID evt)) at 1.
  now apply CheckID_loop_32.
Qed.

Lemma CheckID_sized_iff (evt : Event) :
  length (ID evt) = 64%nat ->
  (CheckID evt = Ok true <-> GetID evt = ID evt).
Proof.
  intros H. rewrite (CheckID_sized evt H), <- bytes_eqb_eq.
  generalize (bytes_eqb (GetID evt) (ID evt)). intros b.
  split; congruence.
Qed.

Lemma bytes_eqb_refl (a : bytes) : bytes_eqb a a = true.
Proof. now apply bytes_eqb_eq. Qed.

Lemma CheckID_empty (h : bytes) :
  CheckID_loop 32 0 h [] = Panic (IndexOutOfRange 0 0).
Proof. reflexivity. Qed.

(** C4: [CheckID] looks at the first 64 characters of the stored
    identifier only and never at its length.  An identifier that extends
    the computed one is accepted although the two differ, and an empty
    identifier makes the first comparison index out of range. *)
Theorem CheckID_ignores_length (evt : Event) (x : byte) (suffix : bytes) :
  (CheckID (withID evt (GetID evt ++ x :: suffix)) = Ok true
   /\ GetID (withID evt (GetID evt ++ x :: suffix))
        <> ID (withID evt (GetID evt ++ x :: suffix)))
  /\ CheckID (withID evt []) = Panic (IndexOutOfRange 0 0).
Proof.
  split; [split|].
  - unfold CheckID, GetID. rewrite idHash_withID. cbn [ID withID].
    pose proof (idHash_length evt) as Hh. revert Hh.
    generalize (idHash evt). intros h Hh.
    rewrite CheckID_loop_32, bytes_eqb_refl; trivial.
    now rewrite EncodeToString_length, Hh.
  - rewrite GetID_withID. cbn [ID withID]. intros E.
    apply (f_equal (@length byte)) in E.
    rewrite length_app in E. simpl in E. lia.
  - unfold CheckID. cbn [ID withID]. apply CheckID_empty.
Qed.

(** The example event with its identifier followed by one more
    character. *)
Example CheckID_longer_example :
  CheckID (withID example_event (GetID example_event ++ str "0")) = Ok true
  /\ CheckID (withID example_event (GetID example_event)) = Ok true
  /\ CheckID (withID example_event (firstn 63 (GetID example_event)))
       = Panic (IndexOutOfRange 63 63).
Proof. vm_compute. auto. Qed.

(** ** Base64 *)

Lemma land_mul_pow2_low (x b n : Z) :
  0 <= n -> 0 <= b < 2 ^ n -> Z.land (x * 2 ^ n) b = 0.
Proof.
  intros Hn Hb.
  destruct (Z.eq_dec b 0) as [->|Hb0]; [apply Z.land_0_r|].
  apply Z.bits_inj'. intros m Hm.
  rewrite Z.land_spec, Z.bits_0.
  destruct (Z.lt_ge_cases m n) as [Hlt|Hge].
  - rewrite Z.mul_pow2_bits_low by lia. reflexivity.
  - rewrite (Z.bits_above_log2 b m), andb_false_r; [reflexivity|lia|].
    assert (Z.log2 b < n) by (apply Z.log2_lt_pow2; lia). lia.
Qed.

(** Or-ing a value below [2^n] into a multiple of [2^n] adds it. *)
Lemma lor_add_low (a b n : Z) :
  0 <= n -> a mod 2 ^ n = 0 -> 0 <= b < 2 ^ n -> Z.lor a b = a + b.
Proof.
  intros Hn Ha Hb.
  assert (E : exists q, a = q * 2 ^ n).
  { exists (a / 2 ^ n). pose proof (Z.div_mod a (2 ^ n)). lia. }
  destruct E as [q ->].
  rewrite <- Z.add_lor_land, land_mul_pow2_low by assumption. lia.
Qed.

Lemma land_63 (v : Z) : Z.land v 63 = v mod 64.
Proof. change 63 with (Z.ones 6). rewrite Z.land_ones by lia. reflexivity. Qed.

Lemma land_15 (v : Z) : Z.land v 15 = v mod 16.
Proof. change 15 with (Z.ones 4). rewrite Z.land_ones by lia. reflexivity. Qed.

Ltac pow2_consts :=
  change (2 ^ 4) with 16 in *; change (2 ^ 6) with 64 in *;
  change (2 ^ 8) with 256 in *; change (2 ^ 12) with 4096 in *;
  change (2 ^ 16) with 65536 in *; change (2 ^ 18) with 262144 in *.

Ltac divmod := pow2_consts; Z.div_mod_to_equations; lia.

(** The value of three bytes, as the encoder assembles it. *)
Lemma triple_val (a b c : Z) :
  0 <= a < 256 -> 0 <= b < 256 -> 0 <= c < 256 ->
  Z.lor (Z.lor (Z.shiftl a 16) (Z.shiftl b 8)) c = a * 65536 + b * 256 + c.
Proof.
  intros Ha Hb Hc. rewrite !Z.shiftl_mul_pow2 by lia.
  rewrite (lor_add_low (a * 2 ^ 16) (b * 2 ^ 8) 16) by divmod.
  rewrite (lor_add_low _ c 8) by divmod.
  pow2_consts. reflexivity.
Qed.

(** The value of four 6-bit digits, as the decoder assembles it. *)
Lemma quantum_val (d0 d1 d2 d3 : Z) :
  0 <= d0 < 64 -> 0 <= d1 < 64 -> 0 <= d2 < 64 -> 0 <= d3 < 64 ->
  base64.quantum d0 d1 d2 d3 = d0 * 262144 + d1 * 4096 + d2 * 64 + d3.
Proof.
  intros H0 H1 H2 H3. unfold base64.quantum.
  rewrite !Z.shiftl_mul_pow2 by lia.
  rewrite (lor_add_low (d0 * 2 ^ 18) (d1 * 2 ^ 12) 18) by divmod.
  rewrite (lor_add_low _ (d2 * 2 ^ 6) 12) by divmod.
  rewrite (lor_add_low _ d3 6) by divmod.
  pow2_consts. reflexivity.
Qed.

Lemma sextet_range (v k : Z) : 0 <= Z.land (Z.shiftr v k) 63 < 64.
Proof. rewrite land_63. apply Z.mod_pos_bound. lia. Qed.

Lemma dec6_enc6 (v : Z) : 0 <= v < 64 -> base64.dec6 (base64.enc6 v) = Some v.
Proof.
  intros H. replace v with (Z.of_nat (Z.to_nat v)) by lia.
  assert (Hn : (Z.to_nat v < 64)%nat) by lia. revert Hn.
  generalize (Z.to_nat v). intros n Hn.
  do 64 (destruct n as [|n]; [reflexivity|]). lia.
Qed.

Lemma enc6_not_newline (v : Z) :
  0 <= v < 64 -> base64.isNewline (base64.enc6 v) = false.
Proof.
  intros H. replace v with (Z.of_nat (Z.to_nat v)) by lia.
  assert (Hn : (Z.to_nat v < 64)%nat) by lia. revert Hn.
  generalize (Z.to_nat v). intros n Hn.
  do 64 (destruct n as [|n]; [reflexivity|]). lia.
Qed.

Lemma byte_of_Z_mod (b : byte) (z : Z) : z mod 256 = Z_of_byte b -> byte_of_Z z = b.
Proof.
  intros H. rewrite <- (byte_of_Z_of_byte b), <- H.
  unfold byte_of_Z. rewrite Z.mod_mod by lia. reflexivity.
Qed.

Lemma list_ind3 {A} (Q : list A -> Prop) :
  Q [] -> (forall a, Q [a]) -> (forall a b, Q [a; b]) ->
  (forall a b c l, Q l -> Q (a :: b :: c :: l)) ->
  forall l, Q l.
Proof.
  intros H0 H1 H2 H3.
  assert (H : forall l, Q l /\ (forall a, Q (a :: l)) /\ (forall a b, Q (a :: b :: l))).
  { induction l as [|x l [IH0 [IH1 IH2]]]; repeat split; auto. }
  intros l. apply H.
Qed.

Lemma dec6_padChar : base64.dec6 base64.padChar = None.
Proof. reflexivity. Qed.

(** Decoding after encoding: the quanta give the bytes back. *)
Lemma decodeQuanta_EncodeToString (bs : bytes) :
  base64.decodeQuanta (base64.EncodeToString bs) = Some bs.
Proof.
  induction bs as [|a|a b|a b c l IH] using list_ind3.
  - reflexivity.
  - cbn [base64.EncodeToString base64.decodeQuanta].
    rewrite !dec6_enc6 by apply sextet_range.
    rewrite dec6_padChar, byte_eqb_refl. cbn [andb length Nat.eqb].
    f_equal. f_equal. apply byte_of_Z_mod.
    rewrite quantum_val by (try apply sextet_range; lia).
    rewrite !land_63, !Z.shiftr_div_pow2, Z.shiftl_mul_pow2 by lia.
    pose proof (Z_of_byte_range a). divmod.
  - cbn [base64.EncodeToString base64.decodeQuanta].
    rewrite !dec6_enc6 by apply sextet_range.
    rewrite dec6_padChar, byte_eqb_refl. cbn [andb length Nat.eqb].
    pose proof (Z_of_byte_range a). pose proof (Z_of_byte_range b).
    rewrite quantum_val by (try apply sextet_range; lia).
    rewrite !land_63, !Z.shiftr_div_pow2, !Z.shiftl_mul_pow2 by lia.
    rewrite (lor_add_low (_ * 2 ^ 16) (_ * 2 ^ 8) 16) by divmod.
    f_equal. f_equal; [|f_equal]; apply byte_of_Z_mod; divmod.
  - cbn [base64.EncodeToString base64.decodeQuanta].
    rewrite !dec6_enc6 by (try apply sextet_range; rewrite land_63; apply Z.mod_pos_bound; lia).
    rewrite IH.
    pose proof (Z_of_byte_range a). pose proof (Z_of_byte_range b).
    pose proof (Z_of_byte_range c).
    rewrite quantum_val
      by (try apply sextet_range; rewrite land_63; apply Z.mod_pos_bound; lia).
    rewrite triple_val by assumption.
    rewrite !land_63, !Z.shiftr_div_pow2 by lia.
    f_equal. f_equal; [|f_equal; [|f_equal]]; apply byte_of_Z_mod; divmod.
Qed.

Lemma EncodeToString_no_newline (bs : bytes) :
  filter (fun c => negb (base64.isNewline c)) (base64.EncodeToString bs)
  = base64.EncodeToString bs.
Proof.
  assert (Hpad : base64.isNewline base64.padChar = false) by reflexivity.
  assert (H64 : forall v, base64.isNewline (base64.enc6 (Z.land v 63)) = false).
  { intros v. apply enc6_not_newline. rewrite land_63. apply Z.mod_pos_bound. lia. }
  induction bs as [|a|a b|a b c l IH] using list_ind3;
    cbn [base64.EncodeToString filter]; rewrite ?H64, ?Hpad; cbn [negb];
    rewrite ?IH; reflexivity.
Qed.

(** [DecodeString] is a left inverse of [EncodeToString]. *)
Lemma DecodeString_EncodeToString (bs : bytes) :
  base64.DecodeString (base64.EncodeToString bs) = Some bs.
Proof.
  unfold base64.DecodeString.
  rewrite EncodeToString_no_newline. apply decodeQuanta_EncodeToString.
Qed.

(** ** The stream cipher *)

Lemma lxor_byte_range (a b : Z) :
  0 <= a < 256 -> 0 <= b < 256 -> 0 <= Z.lxor a b < 256.
Proof.
  intros Ha Hb.
  assert (Hn : 0 <= Z.lxor a b) by (apply Z.lxor_nonneg; lia).
  split; [assumption|].
  destruct (Z.eq_dec (Z.lxor a b) 0) as [->|Hz]; [lia|].
  change 256 with (2 ^ 8). apply Z.log2_lt_pow2; [lia|].
  pose proof (Z.log2_lxor a b ltac:(lia) ltac:(lia)) as Hl.
  assert (Z.log2 a < 8).
  { destruct (Z.eq_dec a 0) as [->|]; [reflexivity|apply Z.log2_lt_pow2; lia]. }
  assert (Z.log2 b < 8).
  { destruct (Z.eq_dec b 0) as [->|]; [reflexivity|apply Z.log2_lt_pow2; lia]. }
  lia.
Qed.

(** XOR-ing twice with the same key-stream byte gives the byte back. *)
Lemma byte_xor_involutive (a k : byte) : byte_xor (byte_xor a k) k = a.
Proof.
  unfold byte_xor. rewrite Z_of_byte_of_Z.
  rewrite Z.mod_small
    by (apply lxor_byte_range; apply Z_of_byte_range).
  rewrite Z.lxor_assoc, Z.lxor_nilpotent, Z.lxor_0_r.
  apply byte_of_Z_of_byte.
Qed.

Lemma xorFrom_length (c : chacha20.Cipher) (src : bytes) :
  forall i, length (chacha20.xorFrom c i src) = length src.
Proof. induction src; intros i; simpl; auto. Qed.

Lemma xorFrom_involutive (c : chacha20.Cipher) (src : bytes) :
  forall i, chacha20.xorFrom c i (chacha20.xorFrom c i src) = src.
Proof.
  induction src as [|b src IH]; intros i; cbn [chacha20.xorFrom].
  - reflexivity.
  - now rewrite byte_xor_involutive, IH.
Qed.

Lemma XORKeyStream_length (c : chacha20.Cipher) (src : bytes) :
  length (chacha20.XORKeyStream c src) = length src.
Proof. apply xorFrom_length. Qed.

(** The key stream depends on the key and the nonce only, so a second
    cipher made from them undoes the first. *)
Lemma XORKeyStream_involutive (c : chacha20.Cipher) (src : bytes) :
  chacha20.XORKeyStream c (chacha20.XORKeyStream c src) = src.
Proof. apply xorFrom_involutive. Qed.

Lemma NewUnauthenticatedCipher_ok (key nonce : bytes) :
  length key = 32%nat -> length nonce = 24%nat ->
  exists cipher, chacha20.NewUnauthenticatedCipher key nonce = Some cipher.
Proof.
  intros Hk Hn. unfold chacha20.NewUnauthenticatedCipher.
  rewrite Hk, Hn. cbn [Nat.eqb chacha20.KeySize chacha20.NonceSizeX negb].
  eexists. reflexivity.
Qed.

Lemma NewUnauthenticatedCipher_key (key nonce : bytes) (cipher : chacha20.Cipher) :
  chacha20.NewUnauthenticatedCipher key nonce = Some cipher ->
  length key = 32%nat.
Proof.
  unfold chacha20.NewUnauthenticatedCipher.
  destruct (length key =? chacha20.KeySize)%nat eqn:E; [|discriminate].
  intros _. now apply Nat.eqb_eq in E.
Qed.

(** ** Slices *)

Lemma copy_same_length (dst src : bytes) :
  length dst = length src -> copy dst src = src.
Proof.
  intros H. unfold copy.
  rewrite H, firstn_all, <- H, skipn_all. apply app_nil_r.
Qed.

Lemma slice_frame (v : byte) (nonce rest : bytes) :
  length nonce = 24%nat ->
  slice (v :: nonce ++ rest) 1 25 = nonce /\ skipn 25 (v :: nonce ++ rest) = rest.
Proof.
  intros H. unfold slice.
  replace 25%nat with (S (length nonce)) by lia.
  replace (S (length nonce) - 1)%nat with (length nonce) by lia.
  rewrite !skipn_cons, skipn_O. split.
  - rewrite firstn_app, Nat.sub_diag, firstn_all. apply app_nil_r.
  - rewrite skipn_app, Nat.sub_diag, skipn_all. reflexivity.
Qed.

(** The frame built by [encryptWithNonce]: version byte, nonce, cipher
    text. *)
Lemma payload_layout (nonce msg : bytes) :
  length nonce = 24%nat ->
  let payload := repeat x00 (1 + 24 + length msg) in
  let payload := set0 payload x01 in
  let payload :=
    firstn 1 payload ++ copy (slice payload 1 25) nonce ++ skipn 25 payload in
  firstn 25 payload ++ copy (skipn 25 payload) msg = x01 :: nonce ++ msg.
Proof.
  intros H. cbv zeta.
  change (1 + 24 + length msg)%nat with (S (24 + length msg)).
  cbn [repeat set0]. rewrite repeat_app.
  destruct (slice_frame x01 (repeat x00 24) (repeat x00 (length msg))
              (repeat_length _ _)) as [-> ->].
  rewrite firstn_cons, firstn_O.
  rewrite copy_same_length by (now rewrite repeat_length).
  cbn [app].
  destruct (slice_frame x01 nonce (repeat x00 (length msg)) H) as [_ ->].
  rewrite copy_same_length by apply repeat_length.
  replace 25%nat with (S (length nonce)) by lia.
  rewrite firstn_cons, firstn_app, Nat.sub_diag, firstn_all, firstn_O.
  now rewrite app_nil_r.
Qed.

(** ** The payload codec *)

Lemma encryptWithNonce_frame (message key nonce : bytes) :
  length key = 32%nat -> length nonce = 24%nat ->
  exists cipher,
    chacha20.NewUnauthenticatedCipher key nonce = Some cipher
    /\ encryptWithNonce message key nonce
       = Ok (base64.EncodeToString
               (x01 :: nonce ++ chacha20.XORKeyStream cipher message)).
Proof.
  intros Hk Hn.
  destruct (NewUnauthenticatedCipher_ok key nonce Hk Hn) as [cipher Hc].
  exists cipher. split; [assumption|].
  unfold encryptWithNonce. rewrite Hc.
  now rewrite (payload_layout nonce _ Hn).
Qed.

Lemma rand_Read_length (f : nat -> byte) (n : nat) (b : bytes) :
  rand.Read (Some f) n = Some b -> length b = n.
Proof. intros [= <-]. now rewrite length_map, length_seq. Qed.

(** What [Decrypt] does with a frame of a version byte, 24 further bytes
    and a rest. *)
Lemma Decrypt_frame (payload key nonce rest : bytes) (cipher : chacha20.Cipher) :
  base64.DecodeString payload = Some (x01 :: nonce ++ rest) ->
  length nonce = 24%nat ->
  chacha20.NewUnauthenticatedCipher key nonce = Some cipher ->
  Decrypt payload key =
    if (length rest =? 0)%nat then Err (ErrPayloadTooSmall 25)
    else Ok (chacha20.XORKeyStream cipher rest).
Proof.
  intros Hd Hn Hc. unfold Decrypt. rewrite Hd.
  cbn [index nth_error bind]. rewrite byte_eqb_refl. cbn [negb].
  destruct (slice_frame x01 nonce rest Hn) as [-> ->].
  cbn [length]. rewrite length_app, Hn, Hc.
  destruct rest as [|r rest]; [reflexivity|].
  cbn [length].
  replace (S (24 + S (length rest)) <=? 25)%nat with false
    by (symmetry; apply Nat.leb_gt; lia).
  reflexivity.
Qed.

(** C6: with a key of 32 bytes and a working random source, [Encrypt]
    returns the base64 form (standard alphabet, padded) of the version
    byte 1, the 24 bytes drawn as nonce, and a cipher text as long as the
    message; decoding the output gives that frame back. *)
Theorem Encrypt_wire_format (message key : bytes) (f : nat -> byte) :
  length key = 32%nat ->
  exists nonce ciphertext payload,
    Encrypt message key (Some f) = Ok payload
    /\ payload = base64.EncodeToString (x01 :: nonce ++ ciphertext)
    /\ base64.DecodeString payload = Some (x01 :: nonce ++ ciphertext)
    /\ nonce = map f (seq 0 24)
    /\ length nonce = 24%nat
    /\ length ciphertext = length message.
Proof.
  intros Hk. unfold Encrypt. cbn [rand.Read option_map].
  assert (Hn : length (map f (seq 0 24)) = 24%nat)
    by now rewrite length_map, length_seq.
  destruct (encryptWithNonce_frame message key _ Hk Hn) as [cipher [_ He]].
  exists (map f (seq 0 24)), (chacha20.XORKeyStream cipher message).
  eexists. split; [exact He|]. split; [reflexivity|].
  split; [apply DecodeString_EncodeToString|].
  split; [reflexivity|]. split; [exact Hn|].
  apply XORKeyStream_length.
Qed.

Lemma Encrypt_wire_format_witness :
  exists nonce ciphertext payload,
    Encrypt (str "hi") exampleKey exampleRandom = Ok payload
    /\ payload = base64.EncodeToString (x01 :: nonce ++ ciphertext)
    /\ base64.DecodeString payload = Some (x01 :: nonce ++ ciphertext)
    /\ nonce = map (fun i => byte_of_Z (Z.of_nat (7 * i + 3))) (seq 0 24)
    /\ length nonce = 24%nat
    /\ length ciphertext = length (str "hi").
Proof.
  apply (Encrypt_wire_format (str "hi") exampleKey). reflexivity.
Defined.

Example Encrypt_example :
  Encrypt (str "hi there") exampleKey exampleRandom
  = Ok (str "AQMKERgfJi00O0JJUFdeZWxzeoGIj5adpLos6siebLXL").
Proof. vm_compute. reflexivity. Qed.

(** [Decrypt] after [Encrypt] under the same key: the message comes back
    unless it is empty. *)
Lemma Decrypt_Encrypt (message key : bytes) (f : nat -> byte) :
  length key = 32%nat ->
  exists payload,
    Encrypt message key (Some f) = Ok payload
    /\ Decrypt payload key =
         if (length message =? 0)%nat then Err (ErrPayloadTooSmall 25)
         else Ok message.
Proof.
  intros Hk. unfold Encrypt. cbn [rand.Read option_map].
  assert (Hn : length (map f (seq 0 24)) = 24%nat)
    by now rewrite length_map, length_seq.
  destruct (encryptWithNonce_frame message key _ Hk Hn) as [cipher [Hc He]].
  eexists. split; [exact He|].
  rewrite (Decrypt_frame _ key _ _ cipher (DecodeString_EncodeToString _) Hn Hc).
  rewrite XORKeyStream_length, XORKeyStream_involutive. reflexivity.
Qed.

(** X1: for every non-empty message and every key of 32 bytes, [Decrypt]
    of the payload that [Encrypt] returns gives the message back. *)
Lemma Decrypt_Encrypt_nonempty (message key : bytes) (f : nat -> byte) :
  length key = 32%nat -> message <> [] ->
  exists payload,
    Encrypt message key (Some f) = Ok payload /\ Decrypt payload key = Ok message.
Proof.
  intros Hk Hm. destruct (Decrypt_Encrypt message key f Hk) as [payload [He Hd]].
  exists payload. split; [assumption|].
  destruct message; [contradiction|exact Hd].
Qed.

(** C1: the round trip fails on the empty message.  [Encrypt] frames it
    as 25 bytes, and [Decrypt] refuses every frame of at most 25 bytes as
    too small. *)
Theorem Decrypt_Encrypt_empty (key : bytes) (f : nat -> byte) :
  length key = 32%nat ->
  exists payload,
    Encrypt [] key (Some f) = Ok payload
    /\ Decrypt payload key = Err (ErrPayloadTooSmall 25).
Proof.
  intros Hk. destruct (Decrypt_Encrypt [] key f Hk) as [payload [He Hd]].
  exists payload. split; assumption.
Qed.

Lemma Decrypt_Encrypt_empty_witness :
  exists payload,
    Encrypt [] exampleKey exampleRandom = Ok payload
    /\ Decrypt payload exampleKey = Err (ErrPayloadTooSmall 25).
Proof. apply (Decrypt_Encrypt_empty exampleKey). reflexivity. Defined.

Example Decrypt_Encrypt_examples :
  bind (Encrypt (str "hi there") exampleKey exampleRandom)
       (fun payload => Decrypt payload exampleKey) = Ok (str "hi there")
  /\ bind (Encrypt [xc3; xa9; xe2; x82; xac] exampleKey exampleRandom)
          (fun payload => Decrypt payload exampleKey)
     = Ok [xc3; xa9; xe2; x82; xac]
  /\ bind (Encrypt [] exampleKey exampleRandom)
          (fun payload => Decrypt payload exampleKey)
     = Err (ErrPayloadTooSmall 25).
Proof. vm_compute. auto. Qed.

(** C2: [Decrypt] is not total.  The empty payload is valid base64 for no
    bytes at all, and the version test reads byte 0 before any length
    test: the call panics. *)
Theorem Decrypt_empty_payload_panics (key : bytes) :
  base64.DecodeString [] = Some []
  /\ Decrypt [] key = Panic (IndexOutOfRange 0 0).
Proof. split; reflexivity. Qed.

(** C7, as stated, fails: the payload "Ag==" decodes to the single byte 2,
    no longer than 25 bytes, and [Decrypt] reports the version, not the
    size. *)
Lemma Decrypt_version_before_size :
  base64.DecodeString (str "Ag==") = Some [x02]
  /\ (length [x02] <= 25)%nat
  /\ Decrypt (str "Ag==") exampleKey = Err (ErrUnknownVersion x02)
  /\ ~ isTooSmall (Decrypt (str "Ag==") exampleKey).
Proof.
  repeat split; try reflexivity; [simpl; lia|].
  intros [n H]. discriminate H.
Qed.

(** C7, amended: for a payload that decodes to at least one byte,
    [Decrypt] reports an unknown version exactly when the first byte is
    not 1, reports a payload too small exactly when the first byte is 1
    and there are at most 25 bytes, and otherwise, with a key of 32
    bytes, returns bytes 25 to the end XOR-ed with the key stream of the
    key and the nonce in bytes 1 to 24. *)
Theorem Decrypt_checks (payload key data : bytes) :
  base64.DecodeString payload = Some data -> data <> [] ->
  (isUnknownVersion (Decrypt payload key) <-> hd x00 data <> x01)
  /\ (isTooSmall (Decrypt payload key)
      <-> hd x00 data = x01 /\ (length data <= 25)%nat)
  /\ (hd x00 data = x01 -> (25 < length data)%nat -> length key = 32%nat ->
      length (slice data 1 25) = 24%nat
      /\ exists cipher,
           chacha20.NewUnauthenticatedCipher key (slice data 1 25) = Some cipher
           /\ Decrypt payload key
              = Ok (chacha20.XORKeyStream cipher (skipn 25 data))).
Proof.
  intros Hd Hne. unfold Decrypt. rewrite Hd.
  destruct data as [|v data]; [contradiction|].
  cbn [index nth_error bind hd].
  destruct (byte_eqb v x01) eqn:Ev; cbn [negb].
  - apply byte_eqb_eq in Ev. subst v.
    destruct (length (x01 :: data) <=? 25)%nat eqn:El.
    + apply Nat.leb_le in El. split; [|split].
      * split; [intros [v H]; discriminate H | intros H; now contradiction H].
      * split; [intros _; split; [reflexivity|assumption]
               | intros _; eexists; reflexivity].
      * intros _ H. lia.
    + apply Nat.leb_gt in El.
      assert (Hs : length (slice (x01 :: data) 1 25) = 24%nat).
      { unfold slice. rewrite length_firstn, length_skipn.
        cbn [length] in *. lia. }
      split; [|split].
      * split; [intros [v H]|intros H; now contradiction H].
        destruct chacha20.NewUnauthenticatedCipher; discriminate H.
      * split; [intros [n H]|intros [_ H]; lia].
        destruct chacha20.NewUnauthenticatedCipher; discriminate H.
      * intros _ _ Hk. split; [exact Hs|].
        destruct (NewUnauthenticatedCipher_ok key _ Hk Hs) as [cipher Hc].
        exists cipher. rewrite Hc. split; reflexivity.
  - assert (Hv : v <> x01).
    { intros ->. rewrite byte_eqb_refl in Ev. discriminate. }
    split; [|split].
    + split; [intros _; exact Hv | intros _; eexists; reflexivity].
    + split; [intros [n H]; discriminate H | intros [H _]; contradiction].
    + intros H. contradiction.
Qed.

Lemma Decrypt_checks_witness :
  (isUnknownVersion (Decrypt (str "AQ==") exampleKey) <-> hd x00 [x01] <> x01)
  /\ (isTooSmall (Decrypt (str "AQ==") exampleKey)
      <-> hd x00 [x01] = x01 /\ (length [x01] <= 25)%nat)
  /\ (hd x00 [x01] = x01 -> (25 < length [x01])%nat ->
      length exampleKey = 32%nat ->
      length (slice [x01] 1 25) = 24%nat
      /\ exists cipher,
           chacha20.NewUnauthenticatedCipher exampleKey (slice [x01] 1 25)
           = Some cipher
           /\ Decrypt (str "AQ==") exampleKey
              = Ok (chacha20.XORKeyStream cipher (skipn 25 [x01]))).
Proof.
  apply (Decrypt_checks (str "AQ==") exampleKey [x01]);
    [reflexivity | discriminate].
Defined.

(** ** Hexadecimal and big-endian encodings *)

Lemma fromHexChar_digit (n : Z) :
  0 <= n < 16 -> hex.fromHexChar (hex.digit n) = Some n.
Proof.
  intros H. replace n with (Z.of_nat (Z.to_nat n)) by lia.
  assert (Hn : (Z.to_nat n < 16)%nat) by lia. revert Hn.
  generalize (Z.to_nat n). intros m Hm.
  do 16 (destruct m as [|m]; [reflexivity|]). lia.
Qed.

(** [hex.DecodeString] is a left inverse of [hex.EncodeToString]. *)
Lemma hex_DecodeString_EncodeToString (bs : bytes) :
  hex.DecodeString (hex.EncodeToString bs) = Some bs.
Proof.
  induction bs as [|b bs IH]; [reflexivity|].
  cbn [hex.EncodeToString hex.DecodeString].
  pose proof (Z_of_byte_range b) as Hb.
  rewrite land_15, Z.shiftr_div_pow2 by lia.
  rewrite !fromHexChar_digit by divmod.
  rewrite IH. f_equal. f_equal. apply byte_of_Z_small.
  rewrite Z.shiftl_mul_pow2 by lia.
  rewrite (lor_add_low _ _ 4) by divmod. divmod.
Qed.

(** The prefix "02" becomes the first byte 2. *)
Lemma hex_DecodeString_02 (s : bytes) :
  hex.DecodeString (str "02" ++ s) = option_map (cons x02) (hex.DecodeString s).
Proof.
  change (str "02" ++ s) with (x30 :: x32 :: s).
  cbn [hex.DecodeString].
  change (hex.fromHexChar x30) with (Some 0).
  change (hex.fromHexChar x32) with (Some 2).
  destruct (hex.DecodeString s); reflexivity.
Qed.

Lemma be_Z_snoc (l : bytes) (b : byte) :
  be_Z (l ++ [b]) = be_Z l * 256 + Z_of_byte b.
Proof. unfold be_Z. rewrite fold_left_app. reflexivity. Qed.

Lemma be_bytes_length (n : nat) : forall v, length (be_bytes n v) = n.
Proof.
  induction n as [|n IH]; intros v; cbn [be_bytes]; [reflexivity|].
  rewrite length_app, IH. simpl. lia.
Qed.

Lemma be_Z_be_bytes (n : nat) :
  forall v, be_Z (be_bytes n v) = v mod 256 ^ Z.of_nat n.
Proof.
  induction n as [|n IH]; intros v.
  - cbn [be_bytes]. change (256 ^ Z.of_nat 0) with 1. now rewrite Z.mod_1_r.
  - cbn [be_bytes]. rewrite be_Z_snoc, IH, Z_of_byte_of_Z.
    rewrite Nat2Z.inj_succ, Z.pow_succ_r by lia.
    rewrite (Z.rem_mul_r v 256 (256 ^ Z.of_nat n)) by lia. lia.
Qed.

Lemma be_Z_be_bytes_32 (v : Z) :
  0 <= v < 2 ^ 256 -> be_Z (be_bytes 32 v) = v.
Proof.
  intros H. rewrite be_Z_be_bytes.
  change (256 ^ Z.of_nat 32) with (2 ^ 256). now apply Z.mod_small.
Qed.

Lemma be_Z_nonneg (bs : bytes) : 0 <= be_Z bs.
Proof.
  induction bs as [|b bs IH] using rev_ind; [reflexivity|].
  rewrite be_Z_snoc. pose proof (Z_of_byte_range b). lia.
Qed.

(** ** SHA-256 returns 32 bytes *)

Lemma sha256_blocks_length (n : nat) :
  forall h msg, length h = 8%nat -> length (sha256.blocks n h msg) = 8%nat.
Proof.
  induction n as [|n IH]; intros h msg Hh; cbn [sha256.blocks]; [assumption|].
  apply IH. unfold sha256.compress. now rewrite length_map, length_seq.
Qed.

Lemma Sum256_length (msg : bytes) : length (sha256.Sum256 msg) = 32%nat.
Proof.
  unfold sha256.Sum256.
  pose proof (sha256_blocks_length (length (sha256.pad msg) / 64)
                sha256.H0 (sha256.pad msg) eq_refl) as H.
  destruct (sha256.blocks _ _ _) as [|a [|b [|c [|d [|e [|f [|g [|h [|]]]]]]]]];
    try discriminate H.
  cbn [flat_map]. rewrite !length_app, !be_bytes_length. reflexivity.
Qed.

(** ** Shared secrets: outcomes *)

Section Outcomes.

Variable c : btcec.Curve.



Lemma rhs_mod (x : Z) : btcec.rhs c x mod btcec.P c = btcec.rhs c x.
Proof. unfold btcec.rhs. apply Zmod_mod. Qed.



End Outcomes.

(** The key parser finds the base point of secp256k1 from its x
    coordinate: its y coordinate is even. *)
Lemma S256_base_point_parses :
  btcec.ParsePubKey btcec.S256 (x02 :: be_bytes 32 (btcec.Gx btcec.S256))
  = Some (btcec.Gx btcec.S256, btcec.Gy btcec.S256).
Proof. vm_compute. reflexivity. Qed.




(** ** Repeated application of an associative operation

    [Pos.iter_op] on a carrier [ok] closed under [op]: the laws of
    exponents, with the side conditions the curve needs. *)

Section IterOp.

Variables (A : Type) (op : A -> A -> A) (ok : A -> Prop).
Hypothesis op_ok : forall x y, ok x -> ok y -> ok (op x y).
Hypothesis op_assoc :
  forall x y z, ok x -> ok y -> ok z -> op (op x y) z = op x (op y z).

Lemma iter_op_ok (p : positive) : forall a, ok a -> ok (Pos.iter_op op p a).
Proof.
  induction p as [p IH|p IH|]; intros a Ha; cbn [Pos.iter_op]; auto.
Qed.

Lemma iter_op_succ (p : positive) :
  forall a, ok a -> Pos.iter_op op (Pos.succ p) a = op a (Pos.iter_op op p a).
Proof.
  induction p as [p IH|p IH|]; intros a Ha; cbn [Pos.succ Pos.iter_op].
  - rewrite IH by auto. apply op_assoc; auto using iter_op_ok.
  - reflexivity.
  - reflexivity.
Qed.

Lemma iter_op_add (p q : positive) (a : A) :
  ok a ->
  Pos.iter_op op (p + q) a = op (Pos.iter_op op p a) (Pos.iter_op op q a).
Proof.
  intros Ha. induction p as [|p IH] using Pos.peano_ind.
  - rewrite Pos.add_1_l. now apply iter_op_succ.
  - rewrite Pos.add_succ_l, !iter_op_succ, IH by assumption.
    symmetry. apply op_assoc; auto using iter_op_ok.
Qed.

Lemma iter_op_mul (p q : positive) (a : A) :
  ok a ->
  Pos.iter_op op p (Pos.iter_op op q a) = Pos.iter_op op (p * q) a.
Proof.
  intros Ha. induction p as [|p IH] using Pos.peano_ind.
  - reflexivity.
  - rewrite iter_op_succ, IH by auto using iter_op_ok.
    rewrite Pos.mul_succ_l. symmetry. now apply iter_op_add.
Qed.

Lemma iter_op_hom (f : A -> A) :
  (forall x, ok x -> ok (f x)) ->
  (forall x y, ok x -> ok y -> f (op x y) = op (f x) (f y)) ->
  forall p a, ok a -> f (Pos.iter_op op p a) = Pos.iter_op op p (f a).
Proof.
  intros Hf Hop.
  induction p as [p IH|p IH|]; intros a Ha; cbn [Pos.iter_op].
  - rewrite Hop, IH, Hop by auto using iter_op_ok. reflexivity.
  - rewrite IH, Hop by auto. reflexivity.
  - reflexivity.
Qed.

End IterOp.

(** ** The group of a curve *)

Section CurveFacts.

Variable c : btcec.Curve.
Hypothesis laws : CurveLaws c.

Let p := btcec.P c.

Lemma P_gt_1 : 1 < p.
Proof. pose proof (Z.prime_ge_2 _ (prime_P c laws)). unfold p. lia. Qed.

Lemma validPoint_some (x y : Z) :
  btcec.validPoint c (Some (x, y)) = true <->
  0 <= x < p /\ 0 <= y < p /\ (y * y) mod p = btcec.rhs c x.
Proof.
  cbn [btcec.validPoint btcec.isOnCurve]. fold p.
  rewrite !andb_true_iff, !Z.leb_le, !Z.ltb_lt, Z.eqb_eq. tauto.
Qed.

Lemma neg_y_range (y : Z) : 0 <= (p - y) mod p < p.
Proof. apply Z.mod_pos_bound. pose proof P_gt_1. lia. Qed.

Lemma neg_y_cases (y : Z) :
  0 <= y < p -> (y = 0 /\ (p - y) mod p = 0) \/ (0 < y /\ (p - y) mod p = p - y).
Proof.
  intros H. destruct (Z.eq_dec y 0) as [->|Hy].
  - left. split; [reflexivity|]. rewrite Z.sub_0_r. apply Z_mod_same_full.
  - right. split; [lia|]. apply Z.mod_small. lia.
Qed.

Lemma neg_y_square (y : Z) :
  0 <= y < p -> ((p - y) mod p * ((p - y) mod p)) mod p = (y * y) mod p.
Proof.
  intros H. destruct (neg_y_cases y H) as [[-> ->]|[Hy ->]]; [reflexivity|].
  replace ((p - y) * (p - y)) with (y * y + (p - 2 * y) * p) by ring.
  apply Z_mod_plus_full.
Qed.

Lemma neg_valid (pt : btcec.Point) :
  btcec.validPoint c pt = true -> btcec.validPoint c (btcec.neg c pt) = true.
Proof.
  destruct pt as [[x y]|]; [|trivial].
  cbn [btcec.neg]. rewrite !validPoint_some. fold p.
  intros [Hx [Hy Hc]]. repeat split; try lia; try apply neg_y_range.
  now rewrite neg_y_square.
Qed.

Lemma add_neg_r (pt : btcec.Point) :
  btcec.validPoint c pt = true -> btcec.add c pt (btcec.neg c pt) = None.
Proof.
  destruct pt as [[x y]|]; [|reflexivity].
  rewrite validPoint_some. intros [Hx [Hy _]].
  cbn [btcec.neg btcec.add]. fold p. rewrite Z.eqb_refl.
  replace ((y + (p - y) mod p) mod p =? 0) with true; [reflexivity|].
  symmetry. apply Z.eqb_eq.
  destruct (neg_y_cases y Hy) as [[-> ->]|[_ ->]]; [reflexivity|].
  replace (y + (p - y)) with p by ring. apply Z_mod_same_full.
Qed.

Lemma add_None_r (pt : btcec.Point) : btcec.add c pt None = pt.
Proof. destruct pt as [[x y]|]; reflexivity. Qed.

Lemma add_None_l (pt : btcec.Point) : btcec.add c None pt = pt.
Proof. reflexivity. Qed.

Lemma xOf_neg (pt : btcec.Point) : btcec.xOf (btcec.neg c pt) = btcec.xOf pt.
Proof. destruct pt as [[x y]|]; reflexivity. Qed.

(** The opposite of a sum is the sum of the opposites. *)
Lemma neg_add (a b : btcec.Point) :
  btcec.validPoint c a = true -> btcec.validPoint c b = true ->
  btcec.neg c (btcec.add c a b) = btcec.add c (btcec.neg c a) (btcec.neg c b).
Proof.
  intros Ha Hb.
  pose proof (neg_valid a Ha) as Hna. pose proof (neg_valid b Hb) as Hnb.
  pose proof (add_valid c laws a b Ha Hb) as Hs.
  pose proof (neg_valid _ Hs) as Hns.
  pose proof (add_valid c laws _ _ Hna Hnb) as Hn.
  assert (Hsn : btcec.add c (btcec.add c a b)
                  (btcec.add c (btcec.neg c a) (btcec.neg c b)) = None).
  { rewrite (add_assoc c laws a b _ Ha Hb Hn).
    rewrite (add_comm c laws (btcec.neg c a) (btcec.neg c b) Hna Hnb).
    rewrite <- (add_assoc c laws b _ _ Hb Hnb Hna).
    rewrite (add_neg_r b Hb), add_None_l. now apply add_neg_r. }
  rewrite <- (add_None_r (btcec.neg c (btcec.add c a b))), <- Hsn.
  rewrite <- (add_assoc c laws _ _ _ Hns Hs Hn).
  rewrite (add_comm c laws _ _ Hns Hs), (add_neg_r _ Hs). reflexivity.
Qed.

(** Scalar multiplication. *)
Lemma mul_valid (k : Z) (pt : btcec.Point) :
  btcec.validPoint c pt = true -> btcec.validPoint c (btcec.mul c k pt) = true.
Proof.
  intros H. destruct k as [|e|e]; cbn [btcec.mul]; try reflexivity.
  apply (iter_op_ok _ (btcec.add c) (fun q => btcec.validPoint c q = true));
    [apply (add_valid c laws)|assumption].
Qed.

Lemma mul_mul (a b : Z) (pt : btcec.Point) :
  0 < a -> 0 < b -> btcec.validPoint c pt = true ->
  btcec.mul c a (btcec.mul c b pt) = btcec.mul c (a * b) pt.
Proof.
  intros Ha Hb H.
  destruct a as [|ea|ea]; try lia. destruct b as [|eb|eb]; try lia.
  cbn [btcec.mul Z.mul].
  apply (iter_op_mul _ (btcec.add c) (fun q => btcec.validPoint c q = true));
    [apply (add_valid c laws)|apply (add_assoc c laws)|assumption].
Qed.

Lemma mul_neg (k : Z) (pt : btcec.Point) :
  btcec.validPoint c pt = true ->
  btcec.mul c k (btcec.neg c pt) = btcec.neg c (btcec.mul c k pt).
Proof.
  intros H. destruct k as [|e|e]; cbn [btcec.mul]; try reflexivity.
  symmetry.
  apply (iter_op_hom _ (btcec.add c) (fun q => btcec.validPoint c q = true));
    [apply (add_valid c laws)|apply neg_valid|apply neg_add|assumption].
Qed.

End CurveFacts.

(** ** Public keys from x coordinates *)

Section LiftX.

Variable c : btcec.Curve.
Hypothesis laws : CurveLaws c.

Let p := btcec.P c.

(** In a prime field a square has at most two roots, opposite to each
    other. *)
Lemma sqrt_unique (r y : Z) :
  0 <= r < p -> 0 <= y < p -> (r * r) mod p = (y * y) mod p ->
  r = y \/ r = (p - y) mod p.
Proof.
  intros Hr Hy H. pose proof (P_gt_1 c laws) as Hp. fold p in Hp.
  assert (D : (p | (r - y) * (r + y))).
  { apply Z.mod_divide; [lia|].
    replace ((r - y) * (r + y)) with (r * r - y * y) by ring.
    rewrite Zminus_mod, H, Z.sub_diag. apply Zmod_0_l. }
  apply (Z.divide_prime_mul _ _ _ (prime_P c laws)) in D.
  destruct D as [[k Hk]|[k Hk]].
  - left. assert (k = 0) by nia. subst k. lia.
  - assert (Hk01 : k = 0 \/ k = 1) by nia.
    destruct Hk01 as [-> | ->].
    + left. lia.
    + right. rewrite Z.mod_small by lia. lia.
Qed.

Lemma fpow_range (a : Z) (e : positive) : 0 <= btcec.fpow c a e < p.
Proof.
  pose proof (P_gt_1 c laws) as Hp. fold p in Hp.
  destruct e; cbn [btcec.fpow]; apply Z.mod_pos_bound; lia.
Qed.

Lemma SquareRootVal_range (a : Z) : 0 <= fst (btcec.SquareRootVal c a) < p.
Proof.
  pose proof (P_gt_1 c laws) as Hp. fold p in Hp.
  unfold btcec.SquareRootVal. cbn [fst].
  destruct ((btcec.P c + 1) / 4); try apply fpow_range; lia.
Qed.

Lemma SquareRootVal_square (a : Z) :
  snd (btcec.SquareRootVal c a) = true ->
  (fst (btcec.SquareRootVal c a) * fst (btcec.SquareRootVal c a)) mod p = a mod p.
Proof.
  unfold btcec.SquareRootVal. cbn [fst snd]. intros H.
  now apply Z.eqb_eq in H.
Qed.

(** [DecompressY] on the x coordinate of a point returns the point or its
    opposite. *)
Lemma DecompressY_point (x y : Z) (odd : bool) :
  btcec.validPoint c (Some (x, y)) = true ->
  exists y',
    btcec.DecompressY c x odd = Some y'
    /\ (y' = y \/ y' = (p - y) mod p).
Proof.
  intros H. apply (validPoint_some c) in H. fold p in H.
  destruct H as [Hx [Hy Hc]].
  pose proof (sqrt_complete c laws y Hy) as Hs. fold p in Hs.
  rewrite Hc in Hs.
  pose proof (SquareRootVal_range (btcec.rhs c x)) as Hr.
  pose proof (SquareRootVal_square _ Hs) as Hq.
  rewrite (rhs_mod c) in Hq.
  unfold btcec.DecompressY.
  destruct (btcec.SquareRootVal c (btcec.rhs c x)) as [r b].
  cbn [fst snd] in *. subst b. rewrite <- Hc in Hq.
  destruct (sqrt_unique r y Hr Hy Hq) as [E|E].
  - destruct (negb _); eexists; (split; [reflexivity|]); subst r; auto.
  - destruct (negb _); eexists; (split; [reflexivity|]); [|auto].
    left. subst r. unfold p in *.
    destruct (neg_y_cases c y Hy) as [[-> ->]|[Hy0 ->]].
    + rewrite Z.sub_0_r. apply Z_mod_same_full.
    + replace (btcec.P c - (btcec.P c - y)) with y by ring.
      apply Z.mod_small. lia.
Qed.

(** [ParsePubKey] on the 32 bytes of the x coordinate of a point. *)
Lemma ParsePubKey_xonly (x y : Z) :
  btcec.validPoint c (Some (x, y)) = true ->
  exists pt,
    btcec.ParsePubKey c (x02 :: be_bytes 32 x) = Some pt
    /\ (Some pt = Some (x, y) \/ Some pt = btcec.neg c (Some (x, y))).
Proof.
  intros H. pose proof H as H'.
  apply (validPoint_some c) in H'. fold p in H'. destruct H' as [Hx [Hy Hc]].
  pose proof (P_fits c laws) as Hf. fold p in Hf.
  destruct (DecompressY_point x y false H) as [y' [Hd Hy']].
  cbn [btcec.ParsePubKey].
  rewrite be_bytes_length, be_Z_be_bytes_32 by lia.
  change (byte_eqb x02 x02) with true. change (byte_eqb x02 x03) with false.
  cbn [Nat.eqb negb orb]. fold p.
  replace (p <=? x) with false by (symmetry; apply Z.leb_gt; lia).
  rewrite Hd. exists (x, y'). split; [reflexivity|].
  cbn [btcec.neg]. fold p. destruct Hy' as [-> | ->]; auto.
Qed.

(** The secret derived from one's private scalar [a] and the x-only
    public key of the scalar [b] is the hash of the x coordinate of
    [a * b] times the base point. *)
Lemma ComputeSharedSecretOn_keys (a b : Z) :
  0 < a < btcec.N c -> 0 < b < btcec.N c ->
  ComputeSharedSecretOn c (publicKeyHex c b) (privateKeyHex a)
  = Ok (sha256.Sum256
          (be_bytes 32 (btcec.xOf (btcec.mul c (a * b) (btcec.G c))))).
Proof.
  intros Ha Hb.
  pose proof (N_range c laws) as HN.
  pose proof (G_valid c laws) as HG.
  pose proof (mul_valid c laws b _ HG) as HB.
  destruct (btcec.mul c b (btcec.G c)) as [[x y]|] eqn:EB;
    [|now apply (G_order c laws b Hb) in EB].
  destruct (ParsePubKey_xonly x y HB) as [pt [Hp Hpt]].
  unfold ComputeSharedSecretOn, privateKeyHex, publicKeyHex.
  rewrite EB. cbn [btcec.xOf].
  rewrite hex_DecodeString_EncodeToString, hex_DecodeString_02,
    hex_DecodeString_EncodeToString.
  cbn [option_map]. rewrite Hp.
  unfold btcec.PrivKeyFromBytes, btcec.GenerateSharedSecret.
  rewrite (firstn_all2 (n := 32) (be_bytes 32 a))
    by (rewrite be_bytes_length; lia).
  rewrite be_Z_be_bytes_32, Z.mod_small by lia.
  f_equal. f_equal. f_equal.
  rewrite <- (mul_mul c laws a b _ ltac:(lia) ltac:(lia) HG), EB.
  destruct Hpt as [-> | ->]; [reflexivity|].
  rewrite (mul_neg c laws a _ HB). apply xOf_neg.
Qed.

End LiftX.

(** On a curve that satisfies [CurveLaws] (a prime field with the
    square-root formula, and the abelian group of its points with a base
    point of order [N]), two private scalars in the valid range and
    their x-only public keys give the same 32-byte secret with the roles
    swapped.  The laws are proved below for the curve over the field of
    43 elements; for secp256k1 they are not proved here, so that this
    says nothing of [ComputeSharedSecret] itself beyond the scalars that
    are evaluated. *)
Theorem ComputeSharedSecret_symmetric (c : btcec.Curve) (skA skB : Z) :
  CurveLaws c ->
  0 < skA < btcec.N c -> 0 < skB < btcec.N c ->
  ComputeSharedSecretOn c (publicKeyHex c skB) (privateKeyHex skA)
  = ComputeSharedSecretOn c (publicKeyHex c skA) (privateKeyHex skB)
  /\ exists secret,
       ComputeSharedSecretOn c (publicKeyHex c skB) (privateKeyHex skA) = Ok secret
       /\ length secret = 32%nat.
Proof.
  intros laws HA HB.
  rewrite (ComputeSharedSecretOn_keys c laws skA skB HA HB).
  rewrite (ComputeSharedSecretOn_keys c laws skB skA HB HA).
  rewrite (Z.mul_comm skB skA). split; [reflexivity|].
  eexists. split; [reflexivity|apply Sum256_length].
Qed.

(** ** The laws on the small curve, by enumeration *)

Lemma point_eqb_eq (a b : btcec.Point) : point_eqb a b = true -> a = b.
Proof.
  destruct a as [[x1 y1]|], b as [[x2 y2]|]; cbn [point_eqb];
    try discriminate; [|reflexivity].
  rewrite andb_true_iff, !Z.eqb_eq. intros [-> ->]. reflexivity.
Qed.

Lemma Zrange_forallb (f : Z -> bool) (n : Z) :
  forallb f (Zrange n) = true -> forall z, 0 <= z < n -> f z = true.
Proof.
  intros H z Hz. rewrite forallb_forall in H. apply H.
  unfold Zrange. apply in_map_iff. exists (Z.to_nat z).
  split; [lia|]. apply in_seq. lia.
Qed.

Lemma points_complete (c : btcec.Curve) (pt : btcec.Point) :
  btcec.validPoint c pt = true -> In pt (points c).
Proof.
  intros H. unfold points. apply filter_In. split; [|assumption].
  destruct pt as [[x y]|]; [right|left; reflexivity].
  apply (validPoint_some c) in H. destruct H as [Hx [Hy _]].
  assert (R : forall z, 0 <= z < btcec.P c -> In z (Zrange (btcec.P c))).
  { intros z Hz. unfold Zrange. apply in_map_iff. exists (Z.to_nat z).
    split; [lia|]. apply in_seq. lia. }
  apply in_flat_map. exists x. split; [now apply R|].
  apply (in_map (fun y => Some (x, y))). now apply R.
Qed.

Lemma tinyPoints_complete (pt : btcec.Point) :
  btcec.validPoint btcec.tiny pt = true -> In pt tinyPoints.
Proof.
  intros H. change tinyPoints with (points btcec.tiny).
  now apply points_complete.
Qed.

Lemma tinyPoints_forallb (f : btcec.Point -> bool) :
  forallb f tinyPoints = true ->
  forall pt, btcec.validPoint btcec.tiny pt = true -> f pt = true.
Proof.
  intros H pt Hpt. rewrite forallb_forall in H.
  apply H. now apply tinyPoints_complete.
Qed.

Lemma tiny_prime : Z.prime 43.
Proof.
  split; [lia|]. intros n Hn D. apply Z.mod_divide in D; [|lia].
  assert (H : (negb (43 mod n =? 0) || (n <=? 1)) = true).
  { apply (Zrange_forallb (fun n => negb (43 mod n =? 0) || (n <=? 1)) 43);
      [vm_compute; reflexivity|lia]. }
  rewrite D in H. cbn in H. apply Z.leb_le in H. lia.
Qed.

Lemma tiny_laws : CurveLaws btcec.tiny.
Proof.
  constructor.
  - exact tiny_prime.
  - reflexivity.
  - split; [reflexivity|discriminate].
  - reflexivity.
  - intros k Hk.
    pose proof (Zrange_forallb
      (fun k => match btcec.mul btcec.tiny k (btcec.G btcec.tiny) with
                | Some _ => true
                | None => k <=? 0
                end) 31 ltac:(vm_compute; reflexivity) k
      ltac:(cbn in Hk; lia)) as H.
    cbv beta in H. intros E. rewrite E in H. apply Z.leb_le in H. lia.
  - intros y Hy.
    apply (Zrange_forallb
      (fun y => snd (btcec.SquareRootVal btcec.tiny ((y * y) mod 43))) 43);
      [vm_compute; reflexivity|exact Hy].
  - intros p q Hp Hq.
    pose proof (tinyPoints_forallb
      (fun p => forallb (fun q => btcec.validPoint btcec.tiny
                                   (btcec.add btcec.tiny p q)) tinyPoints)
      ltac:(vm_compute; reflexivity) p Hp) as H.
    cbv beta in H.
    apply (tinyPoints_forallb _ H q Hq).
  - intros p q r Hp Hq Hr. apply point_eqb_eq.
    pose proof (tinyPoints_forallb
      (fun p => forallb (fun q => forallb (fun r =>
         point_eqb (btcec.add btcec.tiny (btcec.add btcec.tiny p q) r)
                   (btcec.add btcec.tiny p (btcec.add btcec.tiny q r)))
         tinyPoints) tinyPoints)
      ltac:(vm_compute; reflexivity) p Hp) as H.
    cbv beta in H.
    pose proof (tinyPoints_forallb _ H q Hq) as H'. cbv beta in H'.
    apply (tinyPoints_forallb _ H' r Hr).
  - intros p q Hp Hq. apply point_eqb_eq.
    pose proof (tinyPoints_forallb
      (fun p => forallb (fun q =>
         point_eqb (btcec.add btcec.tiny p q) (btcec.add btcec.tiny q p))
         tinyPoints)
      ltac:(vm_compute; reflexivity) p Hp) as H.
    cbv beta in H.
    apply (tinyPoints_forallb _ H q Hq).
Qed.

Lemma ComputeSharedSecret_symmetric_witness :
  ComputeSharedSecretOn btcec.tiny (publicKeyHex btcec.tiny 7) (privateKeyHex 5)
  = ComputeSharedSecretOn btcec.tiny (publicKeyHex btcec.tiny 5) (privateKeyHex 7)
  /\ exists secret,
       ComputeSharedSecretOn btcec.tiny (publicKeyHex btcec.tiny 7)
         (privateKeyHex 5) = Ok secret
       /\ length secret = 32%nat.
Proof.
  apply (ComputeSharedSecret_symmetric btcec.tiny 5 7 tiny_laws);
    split; reflexivity.
Defined.

(** On secp256k1 itself, the key pairs of the scalars 5 and 7. *)
Example ComputeSharedSecret_symmetric_S256 :
  bind (ComputeSharedSecret (publicKeyHex btcec.S256 7) (privateKeyHex 5))
       (fun s => Ok (hex.EncodeToString s))
  = Ok (str "2e272d40ecacbe54c1e602d85013b83e4288f1a1e858323b646b29b23204692c")
  /\ bind (ComputeSharedSecret (publicKeyHex btcec.S256 5) (privateKeyHex 7))
          (fun s => Ok (hex.EncodeToString s))
     = Ok (str "2e272d40ecacbe54c1e602d85013b83e4288f1a1e858323b646b29b23204692c").
Proof. vm_compute. split; reflexivity. Qed.

(** * Further properties *)

(** ** Verification of identifiers *)

(** The loop of [CheckID] is the comparison, character by character, of
    the hexadecimal form of the digest with the stored identifier. *)
Lemma CheckID_loop_compare (h : bytes) :
  forall hpre idpre id,
    length idpre = (2 * length hpre)%nat ->
    CheckID_loop (length h) (length hpre) (hpre ++ h) (idpre ++ id)
    = compareFrom (length idpre) (length idpre + length id)
        (hex.EncodeToString h) id.
Proof.
  induction h as [|b h IH]; intros hpre idpre id Hpre; [reflexivity|].
  cbn [CheckID_loop length hex.EncodeToString compareFrom].
  rewrite nth_middle.
  destruct id as [|d1 id].
  { unfold index. rewrite app_nil_r.
    replace (nth_error idpre (length hpre * 2)) with (@None byte)
      by (symmetry; apply nth_error_None; lia).
    cbn [bind length]. do 2 f_equal; lia. }
  rewrite (index_app_at idpre _ d1) by lia. cbn [bind].
  destruct (byte_eqb _ d1); [|reflexivity]. cbn [negb].
  destruct id as [|d2 id].
  { unfold index.
    replace (nth_error (idpre ++ [d1]) (length hpre * 2 + 1)) with (@None byte)
      by (symmetry; apply nth_error_None; rewrite length_app; simpl; lia).
    cbn [bind length]. rewrite length_app. cbn [length].
    do 2 f_equal; lia. }
  replace (idpre ++ d1 :: d2 :: id) with ((idpre ++ [d1]) ++ d2 :: id)
    by (rewrite <- app_assoc; reflexivity).
  rewrite (index_app_at (idpre ++ [d1]) _ d2)
    by (rewrite length_app; simpl; lia).
  cbn [bind].
  destruct (byte_eqb _ d2); [|reflexivity]. cbn [negb].
  specialize (IH (hpre ++ [b]) (idpre ++ [d1; d2]) id).
  rewrite !length_app in IH. cbn [length] in IH.
  rewrite <- !app_assoc in IH. cbn [app] in IH.
  replace (length hpre + 1)%nat with (S (length hpre)) in IH by lia.
  rewrite <- app_assoc. cbn [app length].
  rewrite IH by lia. f_equal; lia.
Qed.

Lemma CheckID_compare (evt : Event) :
  CheckID evt = compareFrom 0 (length (ID evt)) (GetID evt) (ID evt).
Proof.
  unfold CheckID, GetID.
  pose proof (idHash_length evt) as Hh. revert Hh.
  generalize (idHash evt). intros h Hh.
  pose proof (CheckID_loop_compare h [] [] (ID evt) eq_refl) as L.
  rewrite Hh in L. exact L.
Qed.

Lemma compareFrom_true (expected : bytes) :
  forall pos total s,
    compareFrom pos total expected s = Ok true
    <-> firstn (length expected) s = expected.
Proof.
  induction expected as [|c e IH]; intros pos total s; cbn [compareFrom length].
  - rewrite firstn_O. tauto.
  - destruct s as [|d s]; [split; discriminate|].
    rewrite firstn_cons.
    destruct (byte_eqb c d) eqn:E.
    + apply byte_eqb_eq in E. subst d. rewrite IH.
      split; [intros ->; reflexivity|intros [= H]; exact H].
    + split; [discriminate|]. intros [= H _]. subst d.
      rewrite byte_eqb_refl in E. discriminate.
Qed.

Lemma compareFrom_panic (expected : bytes) :
  forall pos total s q,
    compareFrom pos total expected s = Panic q
    <-> (length s < length expected)%nat
        /\ firstn (length s) expected = s
        /\ q = IndexOutOfRange (pos + length s) total.
Proof.
  induction expected as [|c e IH]; intros pos total s q;
    cbn [compareFrom length].
  - split; [discriminate|]. intros [H _]. lia.
  - destruct s as [|d s]; cbn [length].
    + rewrite firstn_O, Nat.add_0_r. split.
      * intros [= <-]. repeat split. lia.
      * intros [_ [_ ->]]. reflexivity.
    + rewrite firstn_cons.
      destruct (byte_eqb c d) eqn:E.
      * apply byte_eqb_eq in E. subst d. rewrite IH.
        replace (S pos + length s)%nat with (pos + S (length s))%nat by lia.
        split.
        -- intros [H1 [H2 H3]]. repeat split; [lia | now rewrite H2 | exact H3].
        -- intros [H1 [H2 H3]]. injection H2 as H2.
           repeat split; [lia | exact H2 | exact H3].
      * split; [discriminate|]. intros [_ [[= H _] _]]. subst d.
        rewrite byte_eqb_refl in E. discriminate.
Qed.

(** X2: [CheckID] returns true exactly when the first 64 characters of the
    stored identifier are the computed identifier; what follows them is
    never read. *)
Theorem CheckID_true_iff (evt : Event) :
  CheckID evt = Ok true <-> firstn 64 (ID evt) = GetID evt.
Proof.
  rewrite CheckID_compare, compareFrom_true.
  unfold GetID. now rewrite EncodeToString_length, idHash_length.
Qed.

Lemma compareFrom_total (expected : bytes) :
  forall pos total s,
    (exists b, compareFrom pos total expected s = Ok b)
    \/ (exists q, compareFrom pos total expected s = Panic q).
Proof.
  induction expected as [|c e IH]; intros pos total s; cbn [compareFrom].
  - left. now exists true.
  - destruct s as [|d s]; [right; eauto|].
    destruct (byte_eqb c d); [apply IH|left; now exists false].
Qed.

(** X3: [CheckID] panics exactly when the stored identifier has fewer than
    64 characters and agrees with the computed identifier on all of
    them; the index out of range is the length of the identifier.  In
    every other case it returns true or false, and never an error. *)
Theorem CheckID_panics_iff (evt : Event) (q : panic) :
  (CheckID evt = Panic q
   <-> (length (ID evt) < 64)%nat
       /\ firstn (length (ID evt)) (GetID evt) = ID evt
       /\ q = IndexOutOfRange (length (ID evt)) (length (ID evt)))
  /\ (~ ((length (ID evt) < 64)%nat
         /\ firstn (length (ID evt)) (GetID evt) = ID evt) ->
      CheckID evt = Ok true \/ CheckID evt = Ok false).
Proof.
  rewrite CheckID_compare.
  assert (L : length (GetID evt) = 64%nat)
    by (unfold GetID; now rewrite EncodeToString_length, idHash_length).
  revert L. generalize (GetID evt). intros g L.
  split.
  - rewrite compareFrom_panic, L. reflexivity.
  - intros H.
    destruct (compareFrom_total g 0 (length (ID evt)) (ID evt))
      as [[[|] E] | [q' E]]; [now left | now right |].
    exfalso. apply H. apply compareFrom_panic in E. rewrite L in E.
    destruct E as [E1 [E2 _]]. now split.
Qed.

(** An identifier of 64 characters never makes [CheckID] panic. *)
Lemma CheckID_panics_iff_witness :
  CheckID (withID example_event (repeat x30 64)) = Ok true
  \/ CheckID (withID example_event (repeat x30 64)) = Ok false.
Proof.
  apply (proj2 (CheckID_panics_iff _ (IndexOutOfRange 0 0))).
  intros [H _]. cbn [ID withID] in H. rewrite repeat_length in H. lia.
Defined.

Lemma digit_in_hextable (n : Z) : 0 <= n < 16 -> In (hex.digit n) hex.hextable.
Proof.
  intros H. unfold hex.digit. apply nth_In.
  change (length hex.hextable) with 16%nat. lia.
Qed.

Lemma EncodeToString_lowercase (h : bytes) :
  Forall (fun c => In c hex.hextable) (hex.EncodeToString h).
Proof.
  induction h as [|b h IH]; cbn [hex.EncodeToString]; [constructor|].
  pose proof (Z_of_byte_range b) as Hb.
  constructor; [|constructor; [|exact IH]]; apply digit_in_hextable.
  - rewrite Z.shiftr_div_pow2 by lia. divmod.
  - rewrite land_15. divmod.
Qed.

(** X4: every character of a computed identifier is one of the sixteen
    characters 0123456789abcdef. *)
Theorem GetID_lowercase_hex (evt : Event) :
  Forall (fun c => In c (str "0123456789abcdef")) (GetID evt).
Proof. unfold GetID. apply EncodeToString_lowercase. Qed.

(** ** The layout of the canonical bytes *)

(** X5: the canonical bytes are the array
    [0,"pubkey",created_at,kind,[tags],"content"] without white space:
    the tags are separated by commas, each tag is a bracketed list of its
    escaped items separated by commas, in the order given; an empty tag
    list and an empty tag are both []. *)
Theorem Serialize_array_layout (evt : Event) :
  Serialize evt =
    lit "[0,'" ++ PubKey evt ++ lit "',"
      ++ strconv.FormatInt (CreatedAt evt) ++ str ","
      ++ strconv.Itoa (Kind evt) ++ str ",["
      ++ join (str ",")
           (map (fun tag =>
                   str "[" ++ join (str ",") (map (escapeString []) tag)
                     ++ str "]")
                (Tags evt))
      ++ str "]," ++ escapeString [] (Content evt) ++ str "]".
Proof. rewrite Serialize_layout, serializeTags_join. reflexivity. Qed.

Lemma serializeEventInto_layout (evt : Event) (dst : bytes) :
  serializeEventInto evt dst =
    dst ++ lit "[0,'" ++ PubKey evt ++ lit "',"
      ++ strconv.FormatInt (CreatedAt evt) ++ str ","
      ++ strconv.Itoa (Kind evt) ++ str ",["
      ++ serializeTags 0 (Tags evt) [] ++ str "],"
      ++ escapeString [] (Content evt) ++ str "]".
Proof.
  unfold serializeEventInto.
  rewrite escapeString_app, serializeTags_app.
  rewrite <- !app_assoc. reflexivity.
Qed.

(** X6: [serializeEventInto] appends the canonical bytes to the buffer it
    is given and leaves what the buffer holds in place. *)
Theorem serializeEventInto_appends (evt : Event) (dst : bytes) :
  serializeEventInto evt dst = dst ++ Serialize evt.
Proof. rewrite serializeEventInto_layout, Serialize_layout. reflexivity. Qed.

(** ** Outcomes of the payload codec *)

Lemma NewUnauthenticatedCipher_some_iff (key nonce : bytes) :
  (exists cipher, chacha20.NewUnauthenticatedCipher key nonce = Some cipher)
  <-> length key = 32%nat /\ (length nonce = 12%nat \/ length nonce = 24%nat).
Proof.
  unfold chacha20.NewUnauthenticatedCipher,
    chacha20.KeySize, chacha20.NonceSize, chacha20.NonceSizeX.
  destruct (length key =? 32)%nat eqn:Ek; cbn [negb].
  - apply Nat.eqb_eq in Ek.
    destruct (length nonce =? 24)%nat eqn:E24.
    + apply Nat.eqb_eq in E24. split; [auto|]. intros _. eexists. reflexivity.
    + apply Nat.eqb_neq in E24.
      destruct (length nonce =? 12)%nat eqn:E12; cbn [negb].
      * apply Nat.eqb_eq in E12. split; [auto|]. intros _. eexists. reflexivity.
      * apply Nat.eqb_neq in E12. split; [intros [c H]; discriminate H|].
        intros [_ [H|H]]; contradiction.
  - apply Nat.eqb_neq in Ek. split; [intros [c H]; discriminate H|].
    intros [H _]. contradiction.
Qed.

Lemma NewUnauthenticatedCipher_none (key nonce : bytes) :
  ~ (length key = 32%nat /\ (length nonce = 12%nat \/ length nonce = 24%nat)) ->
  chacha20.NewUnauthenticatedCipher key nonce = None.
Proof.
  intros H.
  destruct (chacha20.NewUnauthenticatedCipher key nonce) as [c|] eqn:E;
    [|reflexivity].
  exfalso. apply H. apply NewUnauthenticatedCipher_some_iff. now exists c.
Qed.

(** X7: [Encrypt] fails with the nonce error exactly when the random
    source fails, with the cipher error exactly when the source works
    and the key is not 32 bytes long, and returns a payload exactly when
    the source works and the key is 32 bytes long. *)
Theorem Encrypt_outcomes (message key : bytes) (random : rand.Reader) :
  (Encrypt message key random = Err ErrCreatingNonce <-> random = None)
  /\ (Encrypt message key random = Err ErrCreatingCipher
      <-> random <> None /\ length key <> 32%nat)
  /\ ((exists payload, Encrypt message key random = Ok payload)
      <-> random <> None /\ length key = 32%nat).
Proof.
  unfold Encrypt. destruct random as [f|]; cbn [rand.Read option_map].
  - assert (Hn : length (map f (seq 0 24)) = 24%nat)
      by now rewrite length_map, length_seq.
    destruct (Nat.eq_dec (length key) 32) as [Hk|Hk].
    + destruct (encryptWithNonce_frame message key _ Hk Hn) as [c [_ ->]].
      split; [|split].
      * split; discriminate.
      * split; [discriminate|]. intros [_ H]. contradiction.
      * split; [intros _; split; [discriminate|exact Hk]|].
        intros _. eexists. reflexivity.
    + unfold encryptWithNonce.
      rewrite NewUnauthenticatedCipher_none by tauto.
      split; [|split].
      * split; discriminate.
      * split; [intros _; split; [discriminate|exact Hk]|reflexivity].
      * split; [intros [p H]; discriminate H|]. intros [_ H]. contradiction.
  - split; [|split].
    + split; reflexivity.
    + split; [discriminate|]. intros [H _]. contradiction.
    + split; [intros [p H]; discriminate H|]. intros [H _]. contradiction.
Qed.

Lemma skipn_repeat {A} (x : A) (n m : nat) :
  skipn n (repeat x m) = repeat x (m - n).
Proof.
  revert m. induction n as [|n IH]; intros m.
  - now rewrite Nat.sub_0_r.
  - destruct m as [|m]; [reflexivity|]. cbn [repeat skipn]. apply IH.
Qed.

Lemma copy_shorter (n : nat) (src : bytes) :
  (length src <= n)%nat ->
  copy (repeat x00 n) src = src ++ repeat x00 (n - length src).
Proof.
  intros H. unfold copy.
  rewrite repeat_length, firstn_all2, skipn_repeat by exact H. reflexivity.
Qed.

(** The frame for a nonce of at most 24 bytes: the nonce field is filled
    up with zero bytes. *)
Lemma payload_layout_short (nonce msg : bytes) :
  (length nonce <= 24)%nat ->
  let payload := repeat x00 (1 + 24 + length msg) in
  let payload := set0 payload x01 in
  let payload :=
    firstn 1 payload ++ copy (slice payload 1 25) nonce ++ skipn 25 payload in
  firstn 25 payload ++ copy (skipn 25 payload) msg
  = x01 :: (nonce ++ repeat x00 (24 - length nonce)) ++ msg.
Proof.
  intros H. cbv zeta.
  change (1 + 24 + length msg)%nat with (S (24 + length msg)).
  cbn [repeat set0]. rewrite repeat_app.
  destruct (slice_frame x01 (repeat x00 24) (repeat x00 (length msg))
              (repeat_length _ _)) as [-> ->].
  rewrite firstn_cons, firstn_O, copy_shorter by exact H.
  cbn [app].
  assert (Hf : length (nonce ++ repeat x00 (24 - length nonce)) = 24%nat)
    by (rewrite length_app, repeat_length; lia).
  destruct (slice_frame x01 _ (repeat x00 (length msg)) Hf) as [_ ->].
  rewrite copy_same_length by apply repeat_length.
  replace 25%nat
    with (S (length (nonce ++ repeat x00 (24 - length nonce)))) by lia.
  rewrite firstn_cons, firstn_app, Nat.sub_diag, firstn_all, firstn_O.
  now rewrite app_nil_r.
Qed.

(** X8: [encryptWithNonce] returns a payload exactly when the key is 32
    bytes long and the nonce 12 or 24 bytes long, and fails with the
    cipher error otherwise.  A nonce of 12 bytes is framed as the 12
    bytes followed by 12 zero bytes. *)
Theorem encryptWithNonce_outcomes (message key nonce : bytes) :
  ((exists payload, encryptWithNonce message key nonce = Ok payload)
   <-> length key = 32%nat /\ (length nonce = 12%nat \/ length nonce = 24%nat))
  /\ (~ (length key = 32%nat
         /\ (length nonce = 12%nat \/ length nonce = 24%nat)) ->
      encryptWithNonce message key nonce = Err ErrCreatingCipher)
  /\ (length key = 32%nat -> length nonce = 12%nat ->
      exists cipher,
        chacha20.NewUnauthenticatedCipher key nonce = Some cipher
        /\ encryptWithNonce message key nonce
           = Ok (base64.EncodeToString
                   (x01 :: (nonce ++ repeat x00 12)
                        ++ chacha20.XORKeyStream cipher message))).
Proof.
  unfold encryptWithNonce. split; [|split].
  - rewrite <- NewUnauthenticatedCipher_some_iff.
    destruct (chacha20.NewUnauthenticatedCipher key nonce) as [c|].
    + split; intros _; eexists; reflexivity.
    + split; intros [x H]; discriminate H.
  - intros H. now rewrite NewUnauthenticatedCipher_none.
  - intros Hk Hn.
    destruct (proj2 (NewUnauthenticatedCipher_some_iff key nonce)
                (conj Hk (or_introl Hn))) as [c Hc].
    exists c. split; [exact Hc|]. rewrite Hc.
    rewrite (payload_layout_short nonce _) by lia.
    rewrite Hn. reflexivity.
Qed.

Lemma encryptWithNonce_outcomes_witness :
  exists cipher,
    chacha20.NewUnauthenticatedCipher exampleKey (repeat x07 12) = Some cipher
    /\ encryptWithNonce (str "hi") exampleKey (repeat x07 12)
       = Ok (base64.EncodeToString
               (x01 :: (repeat x07 12 ++ repeat x00 12)
                    ++ chacha20.XORKeyStream cipher (str "hi"))).
Proof.
  apply (encryptWithNonce_outcomes (str "hi") exampleKey (repeat x07 12));
    reflexivity.
Defined.

Lemma Encrypt_outcomes_witness :
  exists payload, Encrypt (str "hi") exampleKey exampleRandom = Ok payload.
Proof.
  apply (proj2 (proj2 (Encrypt_outcomes (str "hi") exampleKey exampleRandom))).
  split; [discriminate|reflexivity].
Defined.

Lemma slice_length (data : bytes) :
  (25 < length data)%nat -> length (slice data 1 25) = 24%nat.
Proof.
  intros H. unfold slice. rewrite length_firstn, length_skipn. lia.
Qed.

(** X9: [Decrypt] returns a plaintext exactly when the key is 32 bytes
    long and the payload decodes to more than 25 bytes of which the first
    is 1; the plaintext is then 25 bytes shorter than the decoded payload,
    so it is never empty. *)
Theorem Decrypt_succeeds_iff (payload key : bytes) :
  ((exists plaintext, Decrypt payload key = Ok plaintext)
   <-> length key = 32%nat
       /\ exists data,
            base64.DecodeString payload = Some data
            /\ hd_error data = Some x01 /\ (25 < length data)%nat)
  /\ (forall plaintext, Decrypt payload key = Ok plaintext ->
      plaintext <> []
      /\ exists data,
           base64.DecodeString payload = Some data
           /\ length data = (25 + length plaintext)%nat).
Proof.
  unfold Decrypt.
  destruct (base64.DecodeString payload) as [data|].
  2:{ split; [split|]; [intros [x H]; discriminate H
                        | intros [_ [d [H _]]]; discriminate H
                        | intros x H; discriminate H]. }
  destruct data as [|v data].
  { cbn [index nth_error bind]. split; [split|].
    - intros [x H]. discriminate H.
    - intros [_ [d [[= <-] [H _]]]]. discriminate H.
    - intros x H. discriminate H. }
  cbn [index nth_error bind].
  destruct (byte_eqb v x01) eqn:Ev; cbn [negb].
  2:{ split; [split|].
      - intros [x H]. discriminate H.
      - intros [_ [d [[= <-] [[= ->] _]]]].
        rewrite byte_eqb_refl in Ev. discriminate.
      - intros x H. discriminate H. }
  apply byte_eqb_eq in Ev. subst v.
  destruct (length (x01 :: data) <=? 25)%nat eqn:El.
  { apply Nat.leb_le in El. split; [split|].
    - intros [x H]. discriminate H.
    - intros [_ [d [[= <-] [_ H]]]]. lia.
    - intros x H. discriminate H. }
  apply Nat.leb_gt in El.
  pose proof (slice_length _ El) as Hs.
  assert (Hm : length (skipn 25 (x01 :: data)) = (length (x01 :: data) - 25)%nat)
    by apply length_skipn.
  revert Hm. generalize (skipn 25 (x01 :: data)). intros msg Hm.
  destruct (chacha20.NewUnauthenticatedCipher key (slice (x01 :: data) 1 25))
    as [cipher|] eqn:Ec.
  - pose proof (NewUnauthenticatedCipher_key _ _ _ Ec) as Hk.
    split; [split|].
    + intros _. split; [exact Hk|]. eexists. repeat split. exact El.
    + intros _. eexists. reflexivity.
    + intros x Hx. injection Hx as Hx.
      assert (Hl : length x = length msg)
        by (rewrite <- Hx; apply XORKeyStream_length).
      split.
      * intros E. rewrite E in Hl. cbn [length] in Hl. lia.
      * eexists. split; [reflexivity|]. lia.
  - split; [split|].
    + intros [x H]. discriminate H.
    + intros [Hk _]. exfalso.
      destruct (NewUnauthenticatedCipher_ok key _ Hk Hs) as [c Hc].
      rewrite Hc in Ec. discriminate.
    + intros x H. discriminate H.
Qed.

Lemma Decrypt_succeeds_iff_witness :
  exists plaintext,
    Decrypt (base64.EncodeToString (x01 :: repeat x00 25)) exampleKey
    = Ok plaintext.
Proof.
  apply (proj1 (Decrypt_succeeds_iff _ exampleKey)).
  split; [reflexivity|].
  exists (x01 :: repeat x00 25).
  split; [apply DecodeString_EncodeToString|].
  split; [reflexivity|]. cbn [length repeat]. lia.
Defined.

(** ** Malleability *)

Lemma byte_xor_swap (a d k : byte) :
  byte_xor (byte_xor a d) k = byte_xor (byte_xor a k) d.
Proof.
  unfold byte_xor. rewrite !Z_of_byte_of_Z.
  rewrite !Z.mod_small by (apply lxor_byte_range; apply Z_of_byte_range).
  f_equal. rewrite !Z.lxor_assoc. f_equal. apply Z.lxor_comm.
Qed.

Lemma xorFrom_xor_bytes (c : chacha20.Cipher) (ct : bytes) :
  forall d i,
    chacha20.xorFrom c i (xor_bytes ct d)
    = xor_bytes (chacha20.xorFrom c i ct) d.
Proof.
  induction ct as [|x ct IH]; intros d i; [reflexivity|].
  destruct d as [|y d]; [reflexivity|].
  cbn [xor_bytes chacha20.xorFrom]. now rewrite byte_xor_swap, IH.
Qed.

Lemma xor_bytes_length (a : bytes) : forall d, length (xor_bytes a d) = length a.
Proof.
  induction a as [|x a IH]; intros [|y d]; cbn [xor_bytes length]; auto.
Qed.

(** X10: the cipher text is not authenticated.  XOR-ing any bytes into the
    cipher text of a valid frame gives a frame that [Decrypt] accepts,
    and the plaintext it returns is the original one XOR-ed with the same
    bytes. *)
Theorem Decrypt_malleable (key nonce ciphertext delta : bytes) :
  length key = 32%nat -> length nonce = 24%nat -> ciphertext <> [] ->
  exists plaintext,
    Decrypt (base64.EncodeToString (x01 :: nonce ++ ciphertext)) key
    = Ok plaintext
    /\ Decrypt (base64.EncodeToString
                  (x01 :: nonce ++ xor_bytes ciphertext delta)) key
       = Ok (xor_bytes plaintext delta).
Proof.
  intros Hk Hn Hc.
  destruct (NewUnauthenticatedCipher_ok key nonce Hk Hn) as [cipher Hci].
  exists (chacha20.XORKeyStream cipher ciphertext).
  rewrite !(Decrypt_frame _ key nonce _ cipher
              (DecodeString_EncodeToString _) Hn Hci).
  rewrite xor_bytes_length.
  destruct ciphertext as [|x ct]; [contradiction|].
  cbn [length Nat.eqb]. split; [reflexivity|].
  unfold chacha20.XORKeyStream. now rewrite xorFrom_xor_bytes.
Qed.

Lemma Decrypt_malleable_witness :
  exists plaintext,
    Decrypt (base64.EncodeToString (x01 :: repeat x00 24 ++ [x41])) exampleKey
    = Ok plaintext
    /\ Decrypt (base64.EncodeToString
                  (x01 :: repeat x00 24 ++ xor_bytes [x41] [x20])) exampleKey
       = Ok (xor_bytes plaintext [x20]).
Proof.
  apply (Decrypt_malleable exampleKey (repeat x00 24) [x41] [x20]);
    [reflexivity | reflexivity | discriminate].
Defined.

(** ** Size and injectivity of the payload *)

Lemma base64_EncodeToString_length (bs : bytes) :
  length (base64.EncodeToString bs) = (4 * ((length bs + 2) / 3))%nat.
Proof.
  induction bs as [|a|a b|a b c l IH] using list_ind3;
    try reflexivity.
  cbn [base64.EncodeToString length]. rewrite IH.
  replace (S (S (S (length l))) + 2)%nat with ((length l + 2) + 1 * 3)%nat by lia.
  rewrite Nat.div_add by lia. lia.
Qed.

(** X11: the payload of a message of n bytes has 4 * ceil((25 + n) / 3)
    characters. *)
Theorem Encrypt_payload_length (message key : bytes) (f : nat -> byte) :
  length key = 32%nat ->
  exists payload,
    Encrypt message key (Some f) = Ok payload
    /\ length payload = (4 * ((length message + 27) / 3))%nat.
Proof.
  intros Hk. unfold Encrypt. cbn [rand.Read option_map].
  assert (Hn : length (map f (seq 0 24)) = 24%nat)
    by now rewrite length_map, length_seq.
  destruct (encryptWithNonce_frame message key _ Hk Hn) as [cipher [_ ->]].
  eexists. split; [reflexivity|].
  rewrite base64_EncodeToString_length. cbn [length].
  rewrite length_app, Hn, XORKeyStream_length.
  do 2 f_equal. lia.
Qed.

Lemma Encrypt_payload_length_witness :
  exists payload,
    Encrypt (str "hi") exampleKey exampleRandom = Ok payload
    /\ length payload = (4 * ((length (str "hi") + 27) / 3))%nat.
Proof. apply (Encrypt_payload_length (str "hi") exampleKey). reflexivity. Defined.

Lemma app_eq_same_length {A} (a1 a2 b1 b2 : list A) :
  length a1 = length a2 -> a1 ++ b1 = a2 ++ b2 -> a1 = a2 /\ b1 = b2.
Proof.
  revert a2. induction a1 as [|x a1 IH]; intros [|y a2] Hl H;
    try discriminate Hl.
  - auto.
  - cbn [app] in H. injection H as -> H. cbn [length] in Hl.
    destruct (IH a2 ltac:(lia) H) as [-> ->]. auto.
Qed.

Lemma Ok_inj {A} (a b : A) : Ok a = Ok b -> a = b.
Proof. intros H. injection H as H. exact H. Qed.

Lemma Some_inj {A} (a b : A) : Some a = Some b -> a = b.
Proof. intros H. injection H as H. exact H. Qed.

(** X12: under one key, two encryptions give the same payload only for the
    same message and the same nonce: no two messages share a payload,
    and a different nonce always shows in the payload. *)
Theorem Encrypt_injective (m1 m2 key : bytes) (f1 f2 : nat -> byte) :
  length key = 32%nat ->
  Encrypt m1 key (Some f1) = Encrypt m2 key (Some f2) ->
  m1 = m2 /\ map f1 (seq 0 24) = map f2 (seq 0 24).
Proof.
  intros Hk. unfold Encrypt. cbn [rand.Read option_map].
  assert (H1 : length (map f1 (seq 0 24)) = 24%nat)
    by now rewrite length_map, length_seq.
  assert (H2 : length (map f2 (seq 0 24)) = 24%nat)
    by now rewrite length_map, length_seq.
  revert H1 H2.
  generalize (map f1 (seq 0 24)), (map f2 (seq 0 24)). intros n1 n2 H1 H2.
  destruct (encryptWithNonce_frame m1 key n1 Hk H1) as [c1 [Hc1 ->]].
  destruct (encryptWithNonce_frame m2 key n2 Hk H2) as [c2 [Hc2 ->]].
  intros E. apply Ok_inj in E.
  apply (f_equal base64.DecodeString) in E.
  rewrite !DecodeString_EncodeToString in E.
  apply Some_inj in E.
  assert (E' : n1 ++ chacha20.XORKeyStream c1 m1
               = n2 ++ chacha20.XORKeyStream c2 m2)
    by (apply (f_equal (@tl byte)) in E; exact E).
  destruct (app_eq_same_length n1 n2 _ _ (eq_trans H1 (eq_sym H2)) E') as [En Ec].
  subst n2. rewrite Hc1 in Hc2. apply Some_inj in Hc2. subst c2.
  split; [|reflexivity].
  rewrite <- (XORKeyStream_involutive c1 m1), Ec.
  apply XORKeyStream_involutive.
Qed.

Lemma Encrypt_injective_witness :
  str "hi" = str "hi"
  /\ map (fun i => byte_of_Z (Z.of_nat (7 * i + 3))) (seq 0 24)
     = map (fun i => byte_of_Z (Z.of_nat (7 * i + 3))) (seq 0 24).
Proof.
  apply (Encrypt_injective (str "hi") (str "hi") exampleKey);
    reflexivity.
Defined.

Lemma Decrypt_Encrypt_nonempty_witness :
  exists payload,
    Encrypt (str "hi") exampleKey exampleRandom = Ok payload
    /\ Decrypt payload exampleKey = Ok (str "hi").
Proof.
  apply (Decrypt_Encrypt_nonempty (str "hi") exampleKey);
    [reflexivity | discriminate].
Defined.

(** ** Private keys the derivation does not refuse *)

Lemma be_bytes_32_0 : be_bytes 32 0 = repeat x00 32.
Proof. vm_compute. reflexivity. Qed.

Lemma mul_0 (c : btcec.Curve) (pt : btcec.Point) : btcec.mul c 0 pt = None.
Proof. reflexivity. Qed.

(** X13: a private key whose scalar is 0 modulo the group order (the
    all-zero key, the group order itself) is not refused, and the secret
    it gives is the hash of 32 zero bytes whatever the public key. *)
Theorem ComputeSharedSecret_zero_scalar
    (pub sk skBytes secret : bytes) :
  hex.DecodeString sk = Some skBytes ->
  btcec.PrivKeyFromBytes btcec.S256 skBytes = 0 ->
  ComputeSharedSecret pub sk = Ok secret ->
  secret = sha256.Sum256 (repeat x00 32).
Proof.
  intros Hsk H0. unfold ComputeSharedSecret, ComputeSharedSecretOn.
  rewrite Hsk, H0.
  destruct (hex.DecodeString (str "02" ++ pub)) as [pubKeyBytes|];
    [|discriminate].
  destruct (btcec.ParsePubKey btcec.S256 pubKeyBytes) as [pubKey|];
    [|discriminate].
  unfold btcec.GenerateSharedSecret. rewrite mul_0.
  cbn [btcec.xOf]. rewrite be_bytes_32_0.
  intros H. apply Ok_inj in H. now subst secret.
Qed.

Lemma zeroKeyHex_decodes : hex.DecodeString zeroKeyHex = Some (repeat x00 32).
Proof. vm_compute. reflexivity. Qed.

Lemma basePointHex_decodes :
  hex.DecodeString basePointHex = Some (be_bytes 32 (btcec.Gx btcec.S256)).
Proof. vm_compute. reflexivity. Qed.

Lemma PrivKeyFromBytes_zero :
  btcec.PrivKeyFromBytes btcec.S256 (repeat x00 32) = 0.
Proof. vm_compute. reflexivity. Qed.

(** With the all-zero private key and the base point as public key. *)
Lemma ComputeSharedSecret_base_zero :
  ComputeSharedSecret basePointHex zeroKeyHex
  = Ok (sha256.Sum256 (repeat x00 32)).
Proof.
  unfold ComputeSharedSecret, ComputeSharedSecretOn.
  rewrite hex_DecodeString_02, zeroKeyHex_decodes, basePointHex_decodes.
  cbn [option_map]. rewrite S256_base_point_parses, PrivKeyFromBytes_zero.
  unfold btcec.GenerateSharedSecret. rewrite mul_0.
  cbn [btcec.xOf]. now rewrite be_bytes_32_0.
Qed.

Lemma ComputeSharedSecret_zero_scalar_witness :
  sha256.Sum256 (repeat x00 32) = sha256.Sum256 (repeat x00 32).
Proof.
  exact (ComputeSharedSecret_zero_scalar basePointHex zeroKeyHex
           (repeat x00 32) (sha256.Sum256 (repeat x00 32))
           zeroKeyHex_decodes PrivKeyFromBytes_zero
           ComputeSharedSecret_base_zero).
Defined.

Lemma list_ind2 {A} (Q : list A -> Prop) :
  Q [] -> (forall a, Q [a]) -> (forall a b l, Q l -> Q (a :: b :: l)) ->
  forall l, Q l.
Proof.
  intros H0 H1 H2.
  assert (H : forall l, Q l /\ (forall a, Q (a :: l))).
  { induction l as [|x l [IH0 IH1]]; split; auto. }
  intros l. apply H.
Qed.

Lemma hex_DecodeString_app (a b da db : bytes) :
  hex.DecodeString a = Some da -> hex.DecodeString b = Some db ->
  hex.DecodeString (a ++ b) = Some (da ++ db).
Proof.
  intros Ha Hb. revert da Ha.
  induction a as [|x|x y a IH] using list_ind2; intros da Ha.
  - injection Ha as <-. exact Hb.
  - discriminate Ha.
  - cbn [app hex.DecodeString] in *.
    destruct (hex.fromHexChar x); [|discriminate].
    destruct (hex.fromHexChar y); [|discriminate].
    destruct (hex.DecodeString a) as [d|]; [|discriminate].
    injection Ha as <-. now rewrite (IH d eq_refl).
Qed.

(** X14: of a private key of more than 32 bytes only the first 32 count:
    hex digits after the first 64 do not change the outcome, as long as
    they are valid hex. *)
Theorem ComputeSharedSecret_private_key_truncated
    (pub sk extra skBytes extraBytes : bytes) :
  hex.DecodeString sk = Some skBytes -> length skBytes = 32%nat ->
  hex.DecodeString extra = Some extraBytes ->
  ComputeSharedSecret pub (sk ++ extra) = ComputeSharedSecret pub sk.
Proof.
  intros Hsk Hl Hex. unfold ComputeSharedSecret, ComputeSharedSecretOn.
  rewrite (hex_DecodeString_app _ _ _ _ Hsk Hex), Hsk.
  unfold btcec.PrivKeyFromBytes.
  rewrite firstn_app, Hl, Nat.sub_diag, firstn_O, app_nil_r. reflexivity.
Qed.

Lemma ComputeSharedSecret_private_key_truncated_witness :
  ComputeSharedSecret basePointHex (zeroKeyHex ++ str "ff")
  = ComputeSharedSecret basePointHex zeroKeyHex.
Proof.
  apply (ComputeSharedSecret_private_key_truncated basePointHex zeroKeyHex
           (str "ff") (repeat x00 32) [xff]);
    [exact zeroKeyHex_decodes | reflexivity | reflexivity].
Defined.

(** ** The header fields can be read back from the canonical bytes *)

Lemma Z_to_int_nonnil (z : Z) :
  Z.to_int z <> Decimal.Pos Decimal.Nil /\ Z.to_int z <> Decimal.Neg Decimal.Nil.
Proof.
  destruct z as [|q|q]; cbn [Z.to_int]; split; try discriminate;
    intros [= H]; now apply DecimalPos.Unsigned.to_uint_nonnil in H.
Qed.

(** [strconv.FormatInt] gives different text for different integers. *)
Lemma FormatInt_inj (a b : Z) :
  strconv.FormatInt a = strconv.FormatInt b -> a = b.
Proof.
  unfold strconv.FormatInt. intros H.
  apply (f_equal string_of_list_byte) in H.
  rewrite !string_of_list_byte_of_string in H.
  apply (f_equal NilZero.int_of_string) in H.
  destruct (Z_to_int_nonnil a) as [Ha1 Ha2].
  destruct (Z_to_int_nonnil b) as [Hb1 Hb2].
  rewrite !NilZero.isi in H by assumption.
  injection H as H.
  apply (f_equal Z.of_int) in H. now rewrite !DecimalZ.of_to in H.
Qed.

Lemma list_byte_of_string_cons (a : ascii) (s : string) :
  list_byte_of_string (String a s) = byte_of_ascii a :: list_byte_of_string s.
Proof. reflexivity. Qed.

Lemma string_of_uint_no_comma (d : Decimal.uint) :
  ~ In x2c (list_byte_of_string (NilEmpty.string_of_uint d)).
Proof.
  induction d; cbn [NilEmpty.string_of_uint];
    rewrite ?list_byte_of_string_cons;
    try (intros [H|H]; [discriminate H|contradiction]).
  intros [].
Qed.

(** The decimal text of an integer holds no comma. *)
Lemma FormatInt_no_comma (z : Z) : ~ In x2c (strconv.FormatInt z).
Proof.
  unfold strconv.FormatInt, NilZero.string_of_int, NilZero.string_of_uint.
  destruct (Z.to_int z) as [d|d].
  - destruct d; try apply string_of_uint_no_comma.
    intros [H|[]]. discriminate H.
  - rewrite list_byte_of_string_cons. intros [H|H]; [discriminate H|].
    revert H. destruct d; try apply string_of_uint_no_comma.
    intros [H|[]]. discriminate H.
Qed.

(** Two texts without the separator, each followed by the separator. *)
Lemma split_at_separator (sep : byte) (a : bytes) :
  forall b r1 r2,
    ~ In sep a -> ~ In sep b ->
    a ++ sep :: r1 = b ++ sep :: r2 -> a = b /\ r1 = r2.
Proof.
  induction a as [|x a IH]; intros [|y b] r1 r2 Ha Hb H; cbn [app] in H.
  - injection H as ->. auto.
  - injection H as <- _. exfalso. apply Hb. now left.
  - injection H as -> _. exfalso. apply Ha. now left.
  - injection H as -> H.
    destruct (IH b r1 r2) as [-> ->]; auto.
    + intros Hin. apply Ha. now right.
    + intros Hin. apply Hb. now right.
Qed.

(** X15: the canonical bytes bind the header fields.  Two events with
    public keys of the same length (64 characters in a well-formed event)
    and the same canonical bytes have the same public key, the same
    creation time and the same kind. *)
Theorem Serialize_binds_header (e1 e2 : Event) :
  length (PubKey e1) = length (PubKey e2) ->
  Serialize e1 = Serialize e2 ->
  PubKey e1 = PubKey e2 /\ CreatedAt e1 = CreatedAt e2 /\ Kind e1 = Kind e2.
Proof.
  intros Hl H. rewrite !Serialize_layout in H.
  apply app_inv_head in H.
  destruct (app_eq_same_length _ _ _ _ Hl H) as [Hp H1].
  apply (app_inv_head (lit "',")) in H1.
  change (str "," ++ ?r) with (x2c :: r) in H1.
  destruct (split_at_separator x2c _ _ _ _
              (FormatInt_no_comma _) (FormatInt_no_comma _) H1) as [Ht H2].
  change (str ",[" ++ ?r) with (x2c :: x5b :: r) in H2.
  destruct (split_at_separator x2c _ _ _ _
              (FormatInt_no_comma _) (FormatInt_no_comma _) H2) as [Hk _].
  split; [exact Hp|]. split; now apply FormatInt_inj.
Qed.

Lemma Serialize_binds_header_witness :
  PubKey example_event = PubKey (withID example_event (str "ab"))
  /\ CreatedAt example_event = CreatedAt (withID example_event (str "ab"))
  /\ Kind example_event = Kind (withID example_event (str "ab")).
Proof.
  apply (Serialize_binds_header example_event
           (withID example_event (str "ab"))); reflexivity.
Defined.
